(** * Solidity source-map decoder (sol-tracing-utils, [source_maps.ts])

    A shallow embedding of [getLocationByOffset] and [parseSourceMap] and
    the properties of the decoder's specification.

    Modelling choices, all taken from the TypeScript source:

    - a JavaScript object used as a table is a [gmap string V]: property
      names are strings, and a read or write through a number goes
      through [ToString] (so [o[0]] is the property ["0"], [o[undefined]]
      the property ["undefined"], [o[NaN]] the property ["NaN"]);
    - a value of type [T | undefined] is an [option T]; reading a missing
      property gives [undefined];
    - a number is [NaN] or an integer [Num z].  Every number the decoder
      handles comes from [parseInt], from [+] on such numbers or from a
      counter, so it is an integer or [NaN]; integers are exact
      (magnitudes beyond 2^53, where a double rounds, are outside the
      model) and [-0] is identified with [0]: both print as ["0"] and
      both differ from [-1], which is all the decoder observes;
    - a string is a [string] of code units in the Latin-1 range;
    - [throw] is the [Throw] constructor of [result];
    - the order in which the properties of an object are visited is the
      one of [map_fold] and [map_to_list], not JavaScript's; both loops
      over properties (lines 50-52 and 92-96) write one property per
      property read, with a value that does not depend on the order;
    - [Buffer.from(hex, 'hex')] and [getPcToInstructionIndexMapping] of
      [./instructions] lie outside [source_maps.ts]: they are parameters
      of [parseSourceMap]. *)

From stdpp Require Import gmap strings list fin_maps pretty.
From Stdlib Require Import Ascii.

#[local] Set Warnings "-clear-no-such-hyp".

Local Open Scope string_scope.
Local Open Scope Z_scope.

(** ** Exceptions *)

Inductive exn :=
  | Error (message : string)
  | TypeError (message : string).

Inductive result (A : Type) :=
  | OK (a : A)
  | Throw (e : exn).
Arguments OK {A} a.
Arguments Throw {A} e.

Global Instance result_ret : MRet result := @OK.
Global Instance result_bind : MBind result := λ A B f m,
  match m with
  | OK a => f a
  | Throw e => Throw e
  end.

Fixpoint foldM {A S : Type} (f : S → A → result S) (l : list A) (s : S)
  : result S :=
  match l with
  | [] => OK s
  | x :: l' => s' ← f s x; foldM f l' s'
  end.

(** ** The JavaScript primitives the decoder uses *)

Module JS.

Inductive number :=
  | NaN
  | Num (z : Z).

Global Instance number_eq_dec : EqDecision number.
Proof. solve_decision. Defined.

(** [Number::toString] on the numbers of the model. *)
Definition ToString (n : number) : string :=
  match n with
  | NaN => "NaN"
  | Num z => pretty z
  end.

(** The property name used by [o[v]] for [v : number | undefined]. *)
Definition ToPropertyKey (v : option number) : string :=
  match v with
  | None => "undefined"
  | Some n => ToString n
  end.

(** [ToString] on [string | undefined], as applied by [parseInt] to its
    argument and by a template literal to an interpolated value. *)
Definition ToStringStr (v : option string) : string :=
  match v with
  | None => "undefined"
  | Some s => s
  end.

(** [_.isNaN] on a number. *)
Definition isNaN (n : number) : bool :=
  match n with
  | NaN => true
  | Num _ => false
  end.

(** [_.isUndefined]. *)
Definition isUndefined {A} (v : option A) : bool :=
  match v with
  | None => true
  | Some _ => false
  end.

(** [a + b] on [number | undefined]: [undefined] converts to [NaN]. *)
Definition ToNumber (v : option number) : number :=
  match v with
  | None => NaN
  | Some n => n
  end.

Definition add (a b : option number) : number :=
  match ToNumber a, ToNumber b with
  | Num x, Num y => Num (x + y)
  | _, _ => NaN
  end.

(** [v !== k] for [v : number | undefined] and an integer literal [k]. *)
Definition strictNotEqual (v : option number) (k : Z) : bool :=
  match v with
  | Some (Num z) => negb (Z.eqb z k)
  | _ => true
  end.

(** [s.split('')]: the code units of [s]. *)
Fixpoint chars (s : string) : list ascii :=
  match s with
  | EmptyString => []
  | String c s' => c :: chars s'
  end.

(** [s.split(sep)] for a one-character separator; the result is never
    empty: [''.split(';')] is [['']]. *)
Fixpoint split (sep : ascii) (s : string) : list string :=
  match s with
  | EmptyString => [""]
  | String c s' =>
      if Ascii.eqb c sep then "" :: split sep s'
      else match split sep s' with
           | h :: t => String c h :: t
           | [] => [String c ""]
           end
  end.

(** White space and line terminators skipped by [parseInt]
    (TAB, LF, VT, FF, CR, SP, NBSP). *)
Definition isWhiteSpace (c : ascii) : bool :=
  let n := Z.of_N (N_of_ascii c) in
  (Z.leb 9 n && Z.leb n 13) || Z.eqb n 32 || Z.eqb n 160.

Fixpoint trimStart (s : string) : string :=
  match s with
  | EmptyString => ""
  | String c s' => if isWhiteSpace c then trimStart s' else s
  end.

Definition digitValue (c : ascii) : option Z :=
  let n := Z.of_N (N_of_ascii c) in
  if Z.leb 48 n && Z.leb n 57 then Some (n - 48) else None.

(** The longest prefix of decimal digits. *)
Fixpoint leadingDigits (s : string) : list Z :=
  match s with
  | EmptyString => []
  | String c s' =>
      match digitValue c with
      | Some d => d :: leadingDigits s'
      | None => []
      end
  end.

Definition mathInt (ds : list Z) : Z :=
  foldl (λ acc d, 10 * acc + d) 0 ds.

(** [parseInt(input, 10)]: skip white space, read one sign, read the
    longest digit prefix; [NaN] when that prefix is empty.  With radix
    10 no [0x] prefix is recognised. *)
Definition parseInt (input : option string) : number :=
  let inputString := ToStringStr input in
  let trimmed := trimStart inputString in
  let '(sign, rest) :=
    match trimmed with
    | String "-" rest => (-1, rest)
    | String "+" rest => (1, rest)
    | _ => (1, trimmed)
    end in
  match leadingDigits rest with
  | [] => NaN
  | ds => Num (sign * mathInt ds)
  end.

End JS.

Import JS.

(** ** Types of [types.ts] as [source_maps.ts] uses them *)

Record LineColumn := { line : Z; column : Z }.

Record SingleFileSourceRange :=
  { start : LineColumn; end_ : LineColumn }.

Record SourceRange :=
  { location : SingleFileSourceRange; fileName : option string }.

Abbreviation LocationByOffset := (gmap string LineColumn).

Record SourceLocation :=
  { offset : option number;
    length : option number;
    fileIndex : option number }.

(** ** [getLocationByOffset] *)

(** One iteration of the [for ... of str.split('')] loop.  Reading
    [location.line] of a missing [location] is a [TypeError]. *)
Definition getLocationByOffset_body
    (st : LocationByOffset * Z) (char : ascii)
  : result (LocationByOffset * Z) :=
  let '(locationByOffset, currentOffset) := st in
  match locationByOffset !! ToString (Num currentOffset) with
  | None => Throw (TypeError "Cannot read properties of undefined")
  | Some location =>
      let isNewline := bool_decide (char = "010"%char) in
      OK (<[ToString (Num (currentOffset + 1)) :=
              {| line := line location + (if isNewline then 1 else 0);
                 column := if isNewline then 0 else column location + 1 |}]>
            locationByOffset,
          currentOffset + 1)
  end.

Definition getLocationByOffset (str : string) : result LocationByOffset :=
  st ← foldM getLocationByOffset_body (chars str)
         ({["0" := {| line := 1; column := 0 |}]}, 0);
  OK (fst st).

(** The table [getLocationByOffset] returns ([getLocationByOffset_total]
    shows that it always returns one). *)
Definition offsetTable (str : string) : LocationByOffset :=
  match getLocationByOffset str with
  | OK locationByOffset => locationByOffset
  | Throw _ => ∅
  end.

(** The position one character after [pos] (lines 23-27), and the
    position of offset [k] of a text, counted from [{line: 1, column: 0}]. *)
Definition advance (pos : LineColumn) (char : ascii) : LineColumn :=
  let isNewline := bool_decide (char = "010"%char) in
  {| line := line pos + (if isNewline then 1 else 0);
     column := if isNewline then 0 else column pos + 1 |}.

Definition positionAt (str : string) (k : nat) : LineColumn :=
  foldl advance {| line := 1; column := 0 |} (take k (chars str)).

(** [str] with the character [c] inserted in front of offset [p]. *)
Fixpoint insertAt (p : nat) (c : ascii) (str : string) : string :=
  match p, str with
  | O, _ => String c str
  | S p', String c0 str' => String c0 (insertAt p' c str')
  | S _, EmptyString => String c ""
  end.

(** ** [parseSourceMap] *)

(** Lines 49-52: [_.map(sourceCodes, ...)] fills one offset table per
    own property of [sourceCodes]; a property whose value is [undefined]
    gets the empty table [{}]. *)
Definition indexSources_body
    (fileIndex : string) (sourceCode : option string)
    (acc : result (gmap string LocationByOffset))
  : result (gmap string LocationByOffset) :=
  locationByOffsetByFileIndex ← acc;
  locationByOffset ←
    match sourceCode with
    | None => OK ∅
    | Some text => getLocationByOffset text
    end;
  OK (<[fileIndex := locationByOffset]> locationByOffsetByFileIndex).

Definition indexSources (sourceCodes : gmap string (option string))
  : result (gmap string LocationByOffset) :=
  map_fold indexSources_body (OK ∅) sourceCodes.

(** Lines 58-71: the fields of one entry, each falling back to the
    previous resolved entry when [parseInt] gives [NaN].  The fourth
    element of the destructuring, [jumpTypeStrIfExists], is bound and
    never read. *)
Definition parseEntry (lastParsedEntry : SourceLocation) (entry : string)
  : SourceLocation :=
  let fields := split ":" entry in
  let instructionIndexStrIfExists := fields !! 0%nat in
  let lengthStrIfExists := fields !! 1%nat in
  let fileIndexStrIfExists := fields !! 2%nat in
  let instructionIndexIfExists := parseInt instructionIndexStrIfExists in
  let lengthIfExists := parseInt lengthStrIfExists in
  let fileIndexIfExists := parseInt fileIndexStrIfExists in
  {| offset :=
       if isNaN instructionIndexIfExists then offset lastParsedEntry
       else Some instructionIndexIfExists;
     length :=
       if isNaN lengthIfExists then length lastParsedEntry
       else Some lengthIfExists;
     fileIndex :=
       if isNaN fileIndexIfExists then fileIndex lastParsedEntry
       else Some fileIndexIfExists |}.

Definition outOfRangeMessage (fileName : option string) : string :=
  "Error while processing sourcemap: location out of range in "
    +:+ ToStringStr fileName.

Record LoopState :=
  { lastParsedEntry : SourceLocation;
    instructionIndexToSourceRange : gmap string SourceRange }.

(** [lastParsedEntry = {}] and [instructionIndexToSourceRange = {}]. *)
Definition initialState : LoopState :=
  {| lastParsedEntry :=
       {| offset := None; length := None; fileIndex := None |};
     instructionIndexToSourceRange := ∅ |}.

Section Decoder.

(** The offset tables built from [sourceCodes], and [sources]. *)
Variable locationByOffsetByFileIndex : gmap string LocationByOffset.
Variable sources : gmap string string.

(** Lines 72-88: the source range of a resolved entry, [None] when the
    [if] takes its empty [else] branch. *)
Definition resolveRange (parsedEntry : SourceLocation)
  : result (option SourceRange) :=
  if strictNotEqual (fileIndex parsedEntry) (-1)
     && negb (isUndefined
                (locationByOffsetByFileIndex
                   !! ToPropertyKey (fileIndex parsedEntry)))
  then
    match locationByOffsetByFileIndex
            !! ToPropertyKey (fileIndex parsedEntry) with
    | None => Throw (TypeError "Cannot read properties of undefined")
    | Some locationByOffset =>
        let start := locationByOffset !! ToPropertyKey (offset parsedEntry) in
        let end_ :=
          locationByOffset
            !! ToString (add (offset parsedEntry) (length parsedEntry)) in
        let fileName := sources !! ToPropertyKey (fileIndex parsedEntry) in
        match start, end_ with
        | Some start, Some end_ =>
            OK (Some {| location := {| start := start; end_ := end_ |};
                        fileName := fileName |})
        | _, _ => Throw (Error (outOfRangeMessage fileName))
        end
    end
  else OK None.

(** The callback of [_.each(entries, ...)] at index [i]. *)
Definition eachEntry_body (st : LoopState) (i : Z) (entry : string)
  : result LoopState :=
  let parsedEntry := parseEntry (lastParsedEntry st) entry in
  range ← resolveRange parsedEntry;
  OK {| lastParsedEntry := parsedEntry;
        instructionIndexToSourceRange :=
          match range with
          | Some sourceRange =>
              <[ToString (Num i) := sourceRange]>
                (instructionIndexToSourceRange st)
          | None => instructionIndexToSourceRange st
          end |}.

Fixpoint eachEntry (i : Z) (entries : list string) (st : LoopState)
  : result LoopState :=
  match entries with
  | [] => OK st
  | entry :: entries' =>
      st' ← eachEntry_body st i entry;
      eachEntry (i + 1) entries' st'
  end.

End Decoder.

(** Lines 91-96: one output property per key of [pcToInstructionIndex];
    the value is the range of the instruction index, or [undefined]. *)
Definition rekey_body
    (pcToInstructionIndex : gmap string number)
    (instructionIndexToSourceRange : gmap string SourceRange)
    (pcsToSourceRange : gmap string (option SourceRange))
    (programCounterKey : string)
  : gmap string (option SourceRange) :=
  let pc := parseInt (Some programCounterKey) in
  let instructionIndex := pcToInstructionIndex !! ToString pc in
  <[ToString pc :=
      instructionIndexToSourceRange !! ToPropertyKey instructionIndex]>
    pcsToSourceRange.

Definition rekey
    (pcToInstructionIndex : gmap string number)
    (instructionIndexToSourceRange : gmap string SourceRange)
  : gmap string (option SourceRange) :=
  foldl (rekey_body pcToInstructionIndex instructionIndexToSourceRange) ∅
        (map_to_list pcToInstructionIndex).*1.

Section ParseSourceMap.

(** [Buffer.from(hex, 'hex')] and the collaborator of [./instructions],
    neither of which is part of [source_maps.ts]. *)
Variable bufferFromHex : string → list Z.
Variable getPcToInstructionIndexMapping : list Z → gmap string number.

Definition parseSourceMap
    (sourceCodes : gmap string (option string))
    (srcMap : string)
    (bytecodeHex : string)
    (sources : gmap string string)
  : result (gmap string (option SourceRange)) :=
  let bytecode := bufferFromHex bytecodeHex in
  let pcToInstructionIndex := getPcToInstructionIndexMapping bytecode in
  locationByOffsetByFileIndex ← indexSources sourceCodes;
  let entries := split ";" srcMap in
  st ← eachEntry locationByOffsetByFileIndex sources 0 entries initialState;
  OK (rekey pcToInstructionIndex (instructionIndexToSourceRange st)).

End ParseSourceMap.

(** ** Notions used to state the properties *)

Definition newline : ascii := "010"%char.

(** The keys of the table of a text of [len] characters. *)
Definition offsetKeys (len : nat) : list string :=
  (λ j : nat, ToString (Num (Z.of_nat j))) <$> seq 0 (S len).

(** The offset table line 51 stores for a property of [sourceCodes]. *)
Definition tableOf (sourceCode : option string) : LocationByOffset :=
  match sourceCode with
  | None => ∅
  | Some text => offsetTable text
  end.

Definition offsetTables (sourceCodes : gmap string (option string))
  : gmap string LocationByOffset :=
  tableOf <$> sourceCodes.

(** Delta resolution on its own: the successive values of [parsedEntry]
    in the loop of lines 56-90, starting from [lastParsedEntry]. *)
Fixpoint deltaResolve (lastParsedEntry : SourceLocation)
    (entries : list string) : list SourceLocation :=
  match entries with
  | [] => []
  | entry :: entries' =>
      let parsedEntry := parseEntry lastParsedEntry entry in
      parsedEntry :: deltaResolve parsedEntry entries'
  end.

Definition resolvedEntries (srcMap : string) : list SourceLocation :=
  deltaResolve (lastParsedEntry initialState) (split ";" srcMap).

(** The two outcomes of range resolution that are not a source range. *)
Definition unmapped (tables : gmap string LocationByOffset)
    (e : SourceLocation) : Prop :=
  fileIndex e = Some (Num (-1))
  ∨ tables !! ToPropertyKey (fileIndex e) = None.

Definition outOfRange (tables : gmap string LocationByOffset)
    (e : SourceLocation) : Prop :=
  fileIndex e ≠ Some (Num (-1))
  ∧ ∃ tbl : LocationByOffset,
      tables !! ToPropertyKey (fileIndex e) = Some tbl
      ∧ (tbl !! ToPropertyKey (offset e) = None
         ∨ tbl !! ToString (add (offset e) (length e)) = None).

(** A field in which [parseInt] finds no integer: after white space and
    one optional sign, the text does not go on with a digit. *)
Definition isDigit (c : ascii) : bool :=
  bool_decide (c ∈ chars "0123456789").

Definition dropSign (s : string) : string :=
  match s with
  | String "-" rest => rest
  | String "+" rest => rest
  | _ => s
  end.

Definition noLeadingInteger (field : option string) : bool :=
  match dropSign (trimStart (ToStringStr field)) with
  | String c _ => negb (isDigit c)
  | EmptyString => true
  end.

(** A well-formed base-10 integer, in the words of the specification: an
    optional minus sign and then digits only, at least one. *)
Definition wellFormedInteger (field : string) : bool :=
  let digits :=
    match field with
    | String "-" rest => chars rest
    | _ => chars field
    end in
  bool_decide (digits ≠ []) && forallb isDigit digits.

(** Two entries that agree on their first three fields. *)
Definition sameButJumpType (entry1 entry2 : string) : Prop :=
  ∀ k, (k < 3)%nat → split ":" entry1 !! k = split ":" entry2 !! k.

(** The keys of a table are prints of integers: a table indexed by
    numbers, as [{ [programCounter: number]: number }]. *)
Definition numericKeys {V} (o : gmap string V) : Prop :=
  ∀ key, key ∈ dom o → ∃ z, key = ToString (Num z).

(** The field of index [idx] has no leading integer in any of the
    entries [0 .. j]: no entry has supplied it yet. *)
Definition fieldAbsentUpTo (idx j : nat) (entries : list string) : Prop :=
  ∀ (j' : nat) entry,
    (j' ≤ j)%nat → entries !! j' = Some entry →
    noLeadingInteger (split ":" entry !! idx) = true.

(** The number of newline characters of a text, and the lexicographic
    order of positions (line first, then column). *)
Definition countNewlines (cs : list ascii) : nat :=
  List.length (filter (λ c, c = newline) cs).

Definition lexLt (p q : LineColumn) : Prop :=
  line p < line q ∨ (line p = line q ∧ column p < column q).






(** What a result says apart from the file names: the locations per
    program counter, or the fact that the decode failed. *)
Definition locationsOf (res : result (gmap string (option SourceRange)))
  : option (gmap string (option SingleFileSourceRange)) :=
  match res with
  | OK pcsToSourceRange =>
      Some ((λ range : option SourceRange, location <$> range)
              <$> pcsToSourceRange)
  | Throw _ => None
  end.

(** * Properties *)

(** ** Printing and reading integers *)

Section Digits.

Local Open Scope N_scope.

Lemma digitValue_pretty_N_char d :
  d < 10 → digitValue (pretty_N_char d) = Some (Z.of_N d).
Proof.
  intros Hd.
  assert (d = 0 ∨ d = 1 ∨ d = 2 ∨ d = 3 ∨ d = 4 ∨ d = 5 ∨ d = 6
          ∨ d = 7 ∨ d = 8 ∨ d = 9) as Hcases by lia.
  repeat (destruct Hcases as [-> | Hcases]; [reflexivity |]).
  by subst.
Qed.

(** A character that is a digit is neither white space nor a sign, so
    [parseInt] starts reading digits at once. *)
Lemma parseInt_digit_head c s d :
  digitValue c = Some d →
  parseInt (Some (String c s))
  = Num (mathInt (leadingDigits (String c s))).
Proof.
  intros Hc. unfold parseInt, ToStringStr.
  assert (trimStart (String c s) = String c s) as ->.
  { destruct c as [[] [] [] [] [] [] [] []]; by try discriminate Hc. }
  assert (match String c s with
          | String "-" rest => (-1, rest)
          | String "+" rest => (1, rest)
          | _ => (1, String c s)
          end%Z = (1%Z, String c s)) as ->.
  { destruct c as [[] [] [] [] [] [] [] []]; by try discriminate Hc. }
  cbn [leadingDigits]. rewrite Hc.
  f_equal. lia.
Qed.

Lemma pretty_N_go_head x s :
  0 < x →
  ∃ d s', d < 10 ∧ pretty_N_go x s = String (pretty_N_char d) s'.
Proof.
  revert s. induction (N.lt_wf_0 x) as [x _ IH]; intros s Hx.
  rewrite pretty_N_go_step by done.
  destruct (decide (x `div` 10 = 0)) as [Hq | Hq].
  - rewrite Hq, pretty_N_go_0.
    exists (x `mod` 10), s. split; [by apply N.mod_lt | done].
  - apply IH; [apply N.div_lt; lia | by apply N.neq_0_lt_0].
Qed.

(** Reading back the digits that [pretty_N_go] prints in front of [s]
    continues Horner's scheme from any accumulator. *)
Lemma leadingDigits_pretty_N_go x s :
  ∃ ds,
    leadingDigits (pretty_N_go x s) = (ds ++ leadingDigits s)%list
    ∧ (∀ a, foldl (λ acc d, 10 * acc + d)%Z a ds
            = (a * 10 ^ Z.of_nat (List.length ds) + Z.of_N x)%Z)
    ∧ (0 < x → ds ≠ []).
Proof.
  revert s. induction (N.lt_wf_0 x) as [x _ IH]; intros s.
  destruct (decide (x = 0)) as [-> | Hx].
  { exists []. rewrite pretty_N_go_0. split_and!; [done | | lia].
    intros a; simpl. lia. }
  rewrite pretty_N_go_step by lia.
  destruct (IH (x `div` 10) ltac:(apply N.div_lt; lia)
               (String (pretty_N_char (x `mod` 10)) s))
    as (ds & Hds & Hval & _).
  exists (ds ++ [Z.of_N (x `mod` 10)])%list. split_and!.
  - rewrite Hds. cbn [leadingDigits].
    rewrite digitValue_pretty_N_char by (apply N.mod_lt; lia).
    by rewrite <- app_assoc.
  - intros a. rewrite foldl_app, Hval, length_app. simpl.
    rewrite Nat2Z.inj_add, Z.pow_add_r by lia.
    pose proof (N.div_mod x 10 ltac:(lia)) as Hdm.
    rewrite N2Z.inj_div, N2Z.inj_mod.
    pose proof (Z.div_mod (Z.of_N x) 10 ltac:(lia)). simpl Z.of_N. lia.
  - intros _. by destruct ds.
Qed.

End Digits.

Lemma mathInt_pretty_N_go x :
  (0 < x)%N →
  leadingDigits (pretty_N_go x "") ≠ []
  ∧ mathInt (leadingDigits (pretty_N_go x "")) = Z.of_N x.
Proof.
  intros Hx.
  destruct (leadingDigits_pretty_N_go x "") as (ds & -> & Hval & Hne).
  cbn [leadingDigits]. rewrite app_nil_r. split; [by apply Hne |].
  unfold mathInt. rewrite Hval. lia.
Qed.

Lemma parseInt_pretty_pos p :
  parseInt (Some (pretty_N_go (N.pos p) "")) = Num (Z.pos p).
Proof.
  destruct (pretty_N_go_head (N.pos p) "" ltac:(lia)) as (d & s' & Hd & Hs).
  pose proof (mathInt_pretty_N_go (N.pos p) ltac:(lia)) as [_ Hval].
  rewrite Hs in *.
  rewrite (parseInt_digit_head _ _ _ (digitValue_pretty_N_char d Hd)).
  by rewrite Hval.
Qed.

Lemma parseInt_minus s :
  parseInt (Some (String "-" s))
  = match leadingDigits s with
    | [] => NaN
    | ds => Num (- mathInt ds)
    end.
Proof.
  unfold parseInt, ToStringStr.
  change (trimStart (String "-" s)) with (String "-" s). cbv beta iota.
  destruct (leadingDigits s); [done |]. f_equal; lia.
Qed.

(** [parseInt(String(z), 10)] is [z]: the round trip of line 93. *)
Lemma parseInt_ToString z : parseInt (Some (ToString (Num z))) = Num z.
Proof.
  destruct z as [| p | p]; [done | apply parseInt_pretty_pos |].
  change (ToString (Num (Z.neg p)))
    with (String "-" (pretty (N.pos p))).
  unfold pretty, pretty_N. rewrite decide_False by lia.
  destruct (mathInt_pretty_N_go (N.pos p) ltac:(lia)) as [Hne Hval].
  rewrite parseInt_minus.
  destruct (leadingDigits (pretty_N_go (N.pos p) "")); [done |].
  by rewrite Hval.
Qed.

Global Instance ToString_Num_inj : Inj (=) (=) (λ z, ToString (Num z)).
Proof. intros x y Hxy. by apply (inj pretty). Qed.

Lemma ToString_Num_not_undefined z : ToString (Num z) ≠ "undefined".
Proof.
  intros Hz. pose proof (parseInt_ToString z) as Hp.
  rewrite Hz in Hp. discriminate Hp.
Qed.

Lemma ToString_Num_not_NaN z : ToString (Num z) ≠ "NaN".
Proof.
  intros Hz. pose proof (parseInt_ToString z) as Hp.
  rewrite Hz in Hp. discriminate Hp.
Qed.

(** Two prints of different integers are different property names. *)
Ltac key_neq :=
  let Heq := fresh "Heq" in
  intros Heq; apply (inj (λ z, ToString (Num z))) in Heq; lia.

(** ** The offset indexer *)

Lemma getLocationByOffset_body_OK locationByOffset currentOffset pos char :
  locationByOffset !! ToString (Num currentOffset) = Some pos →
  getLocationByOffset_body (locationByOffset, currentOffset) char
  = OK (<[ToString (Num (currentOffset + 1)) := advance pos char]>
          locationByOffset,
        currentOffset + 1).
Proof. intros Hpos. unfold getLocationByOffset_body. by rewrite Hpos. Qed.

Lemma offsetKeys_shift n len :
  (λ j, ToString (Num (n + 1 + Z.of_nat j))) <$> seq 1 len
  = (λ j, ToString (Num (n + Z.of_nat j))) <$> seq 2 len.
Proof.
  rewrite <- (fmap_S_seq 1), <- list_fmap_compose.
  apply list_fmap_ext. intros i j _. cbn.
  replace (n + 1 + Z.of_nat j) with (n + Z.of_nat (S j)) by lia. done.
Qed.

(** The loop invariant: started at offset [n] whose position [pos] is in
    the table, the loop never misses its read, adds the keys
    [n+1 .. n+|cs|] and leaves the keys up to [n] alone. *)
Lemma getLocationByOffset_loop cs :
  ∀ (tbl : LocationByOffset) n pos,
    tbl !! ToString (Num n) = Some pos →
    ∃ tbl' : LocationByOffset,
      foldM getLocationByOffset_body cs (tbl, n)
      = OK (tbl', n + Z.of_nat (List.length cs))
      ∧ (∀ j, (0 < j ≤ List.length cs)%nat →
              tbl' !! ToString (Num (n + Z.of_nat j))
              = Some (foldl advance pos (take j cs)))
      ∧ (∀ k, k ≤ n → tbl' !! ToString (Num k) = tbl !! ToString (Num k))
      ∧ dom tbl'
        = dom tbl
          ∪ list_to_set
              ((λ j, ToString (Num (n + Z.of_nat j)))
                 <$> seq 1 (List.length cs)).
Proof.
  induction cs as [| c cs IH]; intros tbl n pos Hpos.
  { exists tbl. cbn. split_and!.
    - do 2 f_equal. lia.
    - intros j Hj. lia.
    - done.
    - set_solver. }
  cbn [foldM]. rewrite (getLocationByOffset_body_OK _ _ pos) by done.
  cbn [mbind result_bind].
  destruct (IH (<[ToString (Num (n + 1)) := advance pos c]> tbl) (n + 1)
              (advance pos c) ltac:(by rewrite lookup_insert_eq))
    as (tbl' & Hrun & Hnew & Hold & Hdom).
  exists tbl'. split_and!.
  - rewrite Hrun. do 2 f_equal. cbn [List.length]. lia.
  - intros j Hj. destruct j as [| j]; [lia |].
    destruct j as [| j].
    + rewrite Hold by lia. by rewrite lookup_insert_eq.
    + replace (n + Z.of_nat (S (S j))) with (n + 1 + Z.of_nat (S j)) by lia.
      rewrite Hnew by (cbn [List.length] in Hj; lia). done.
  - intros k Hk. rewrite Hold by lia.
    apply lookup_insert_ne. key_neq.
  - rewrite Hdom, dom_insert_L. cbn [List.length seq].
    rewrite fmap_cons, list_to_set_cons, (offsetKeys_shift n).
    replace (n + Z.of_nat 1) with (n + 1) by lia. set_solver.
Qed.

Lemma length_chars str : List.length (chars str) = String.length str.
Proof. induction str as [| c str IH]; [done |]. cbn. by rewrite IH. Qed.

Lemma getLocationByOffset_spec str :
  ∃ tbl : LocationByOffset,
    getLocationByOffset str = OK tbl
    ∧ (∀ k, (k ≤ String.length str)%nat →
            tbl !! ToString (Num (Z.of_nat k)) = Some (positionAt str k))
    ∧ dom tbl = list_to_set (offsetKeys (String.length str)).
Proof.
  destruct (getLocationByOffset_loop (chars str)
              {["0" := {| line := 1; column := 0 |}]} 0
              {| line := 1; column := 0 |} ltac:(done))
    as (tbl & Hrun & Hnew & Hold & Hdom).
  rewrite length_chars in *.
  exists tbl. split_and!.
  - unfold getLocationByOffset. by rewrite Hrun.
  - intros k Hk. destruct k as [| k].
    + rewrite Hold by lia. done.
    + specialize (Hnew (S k) ltac:(lia)).
      by replace (0 + Z.of_nat (S k)) with (Z.of_nat (S k)) in Hnew by lia.
  - rewrite Hdom, dom_singleton_L. unfold offsetKeys.
    cbn [seq]. rewrite fmap_cons, list_to_set_cons. done.
Qed.

Lemma getLocationByOffset_total str :
  getLocationByOffset str = OK (offsetTable str).
Proof.
  unfold offsetTable.
  by destruct (getLocationByOffset_spec str) as (tbl & -> & _).
Qed.

Lemma offsetTable_lookup str k :
  (k ≤ String.length str)%nat →
  offsetTable str !! ToString (Num (Z.of_nat k)) = Some (positionAt str k).
Proof.
  intros Hk. destruct (getLocationByOffset_spec str) as (tbl & Hrun & Hl & _).
  unfold offsetTable. rewrite Hrun. by apply Hl.
Qed.

Lemma elem_of_offsetKeys len key :
  key ∈ offsetKeys len ↔ ∃ k, 0 ≤ k ≤ Z.of_nat len ∧ key = ToString (Num k).
Proof.
  unfold offsetKeys. rewrite list_elem_of_fmap. split.
  - intros (j & -> & Hj). apply elem_of_seq in Hj.
    exists (Z.of_nat j). split; [lia | done].
  - intros (k & Hk & ->). exists (Z.to_nat k). split.
    + by rewrite Z2Nat.id by lia.
    + apply elem_of_seq. lia.
Qed.

Lemma NoDup_offsetKeys len : NoDup (offsetKeys len).
Proof.
  unfold offsetKeys. apply NoDup_fmap_2; [| apply NoDup_seq].
  intros i j Hij. apply (inj (λ z, ToString (Num z))) in Hij. lia.
Qed.

Lemma dom_offsetTable str :
  dom (offsetTable str) = list_to_set (offsetKeys (String.length str)).
Proof.
  destruct (getLocationByOffset_spec str) as (tbl & Hrun & _ & Hdom).
  unfold offsetTable. by rewrite Hrun.
Qed.

(** A key of the table is the print of an offset [0 .. len]. *)
Lemma offsetTable_is_Some str key :
  is_Some (offsetTable str !! key)
  ↔ ∃ k, 0 ≤ k ≤ Z.of_nat (String.length str) ∧ key = ToString (Num k).
Proof.
  rewrite <- elem_of_dom, dom_offsetTable, elem_of_list_to_set.
  apply elem_of_offsetKeys.
Qed.

Lemma offsetTable_lookup_Num_None str z :
  offsetTable str !! ToString (Num z) = None
  ↔ z < 0 ∨ Z.of_nat (String.length str) < z.
Proof.
  rewrite eq_None_not_Some, offsetTable_is_Some. split.
  - intros Hno. destruct (decide (0 ≤ z ≤ Z.of_nat (String.length str)));
      [| lia].
    destruct Hno. by exists z.
  - intros Hz (k & Hk & Heq).
    apply (inj (λ z, ToString (Num z))) in Heq. lia.
Qed.

Lemma offsetTable_lookup_undefined str : offsetTable str !! "undefined" = None.
Proof.
  rewrite eq_None_not_Some, offsetTable_is_Some.
  intros (k & _ & Heq). by eapply ToString_Num_not_undefined.
Qed.

Lemma offsetTable_lookup_NaN str : offsetTable str !! "NaN" = None.
Proof.
  rewrite eq_None_not_Some, offsetTable_is_Some.
  intros (k & _ & Heq). by eapply ToString_Num_not_NaN.
Qed.

(** C7. For every source text [T], the empty one included,
    [getLocationByOffset] returns a table with exactly [len(T) + 1] keys,
    namely the offsets [0 .. len(T)], and the entry of key [0] is
    [{line: 1, column: 0}]. *)
Theorem getLocationByOffset_keys (T : string) :
  ∃ tbl : LocationByOffset,
    getLocationByOffset T = OK tbl
    ∧ size tbl = S (String.length T)
    ∧ (∀ key, key ∈ dom tbl
              ↔ ∃ k, 0 ≤ k ≤ Z.of_nat (String.length T)
                     ∧ key = ToString (Num k))
    ∧ tbl !! ToString (Num 0) = Some {| line := 1; column := 0 |}.
Proof.
  exists (offsetTable T). split_and!.
  - apply getLocationByOffset_total.
  - rewrite <- size_dom, dom_offsetTable.
    rewrite size_list_to_set by apply NoDup_offsetKeys.
    unfold offsetKeys. by rewrite length_fmap, length_seq.
  - intros key. rewrite elem_of_dom. apply offsetTable_is_Some.
  - apply (offsetTable_lookup T 0). lia.
Qed.

(** ** Inserting a newline *)

Lemma chars_insertAt p c str :
  (p ≤ String.length str)%nat →
  chars (insertAt p c str)
  = (take p (chars str) ++ c :: drop p (chars str))%list.
Proof.
  revert str. induction p as [| p IH]; intros str Hp.
  { by destruct str. }
  destruct str as [| c0 str]; cbn in Hp; [lia |].
  cbn. by rewrite IH by lia.
Qed.

Lemma length_insertAt p c str :
  (p ≤ String.length str)%nat →
  String.length (insertAt p c str) = S (String.length str).
Proof.
  intros Hp. rewrite <- !length_chars, chars_insertAt by done.
  rewrite length_app, length_cons, length_take, length_drop, length_chars. lia.
Qed.

(** The line number only counts the newlines passed. *)
Lemma line_foldl_advance_app pos l1 l2 :
  line (foldl advance pos (l1 ++ newline :: l2))
  = line (foldl advance pos (l1 ++ l2)) + 1.
Proof.
  rewrite !foldl_app. cbn [foldl].
  generalize (foldl advance pos l1) as q. intros q.
  assert (∀ l a b, line a = line b + 1 →
                   line (foldl advance a l) = line (foldl advance b l) + 1)
    as Hshift.
  { induction l as [| c l IH]; intros a b Hab; [done |].
    cbn [foldl]. apply IH. cbn. lia. }
  apply Hshift. done.
Qed.

Lemma take_insert_newline {A} (p o : nat) (x : A) (l : list A) :
  (p ≤ o)%nat → (o ≤ List.length l)%nat →
  take (S o) (take p l ++ x :: drop p l)
  = (take p l ++ x :: take (o - p) (drop p l))%list
  ∧ take o l = (take p l ++ take (o - p) (drop p l))%list.
Proof.
  intros Hpo Hol. split.
  - rewrite take_app, length_take, Nat.min_l by lia.
    rewrite take_take, Nat.min_r by lia.
    replace (S o - p)%nat with (S (o - p)) by lia. done.
  - rewrite <- (take_drop p l) at 1.
    rewrite take_app, length_take, Nat.min_l by lia.
    by rewrite take_take, Nat.min_r by lia.
Qed.

(** C8. Let [T'] be [T] with a newline inserted at a position [p] of
    [T] (the end of the text and the empty text included).  The position
    [getLocationByOffset(T')] records just after the inserted newline,
    at [p + 1], has column 0; and for every offset [o > p] of [T], the
    position it records at the shifted offset [o + 1] is one line below
    the position [getLocationByOffset(T)] records at [o]. *)
Theorem getLocationByOffset_insert_newline (T : string) (p : nat) :
  (p ≤ String.length T)%nat →
  ∃ tbl tbl' : LocationByOffset,
    getLocationByOffset T = OK tbl
    ∧ getLocationByOffset (insertAt p newline T) = OK tbl'
    ∧ (∃ after,
          tbl' !! ToString (Num (Z.of_nat p + 1)) = Some after
          ∧ column after = 0)
    ∧ (∀ o : nat,
          (p < o ≤ String.length T)%nat →
          ∃ pos pos',
            tbl !! ToString (Num (Z.of_nat o)) = Some pos
            ∧ tbl' !! ToString (Num (Z.of_nat o + 1)) = Some pos'
            ∧ line pos' = line pos + 1).
Proof.
  intros Hp.
  exists (offsetTable T), (offsetTable (insertAt p newline T)).
  pose proof (length_insertAt p newline T Hp) as Hlen.
  split_and!; try apply getLocationByOffset_total.
  - exists (positionAt (insertAt p newline T) (S p)). split.
    + replace (Z.of_nat p + 1) with (Z.of_nat (S p)) by lia.
      apply offsetTable_lookup. lia.
    + unfold positionAt. rewrite chars_insertAt by done.
      destruct (take_insert_newline p p newline (chars T)) as [-> _];
        [lia | rewrite length_chars; lia |].
      rewrite Nat.sub_diag, take_0, foldl_app. done.
  - intros o Ho.
    exists (positionAt T o), (positionAt (insertAt p newline T) (S o)).
    split_and!.
    + apply offsetTable_lookup. lia.
    + replace (Z.of_nat o + 1) with (Z.of_nat (S o)) by lia.
      apply offsetTable_lookup. lia.
    + unfold positionAt. rewrite chars_insertAt by done.
      destruct (take_insert_newline p o newline (chars T)) as [-> ->];
        [lia | rewrite length_chars; lia |].
      apply line_foldl_advance_app.
Qed.

Lemma getLocationByOffset_insert_newline_witness :
  (∃ (tbl tbl' : LocationByOffset) after pos pos',
      getLocationByOffset "abcdef" = OK tbl
      ∧ getLocationByOffset (insertAt 3 newline "abcdef") = OK tbl'
      ∧ tbl' !! ToString (Num (Z.of_nat 3 + 1)) = Some after
      ∧ column after = 0
      ∧ tbl !! ToString (Num (Z.of_nat 5)) = Some pos
      ∧ tbl' !! ToString (Num (Z.of_nat 5 + 1)) = Some pos'
      ∧ line pos' = line pos + 1)
  ∧ (∃ (tbl' : LocationByOffset) after,
        getLocationByOffset (insertAt 0 newline "") = OK tbl'
        ∧ tbl' !! ToString (Num (Z.of_nat 0 + 1)) = Some after
        ∧ column after = 0).
Proof.
  split.
  - destruct (getLocationByOffset_insert_newline "abcdef" 3)
      as (tbl & tbl' & Hrun & Hrun' & (after & Hafter & Hcol) & Hline);
      [cbn; lia |].
    destruct (Hline 5%nat) as (pos & pos' & Hpos & Hpos' & Hl);
      [cbn; lia |].
    by exists tbl, tbl', after, pos, pos'.
  - destruct (getLocationByOffset_insert_newline "" 0)
      as (tbl & tbl' & Hrun & Hrun' & (after & Hafter & Hcol) & Hline);
      [cbn; lia |].
    by exists tbl', after.
Defined.

(** ** Indexing the sources *)

Lemma indexSources_total sourceCodes :
  indexSources sourceCodes = OK (offsetTables sourceCodes).
Proof.
  unfold indexSources, offsetTables.
  apply (map_fold_weak_ind (λ r m, r = OK (tableOf <$> m))).
  - by rewrite fmap_empty.
  - intros fileIndex sourceCode m r _ ->. unfold indexSources_body.
    cbn [mbind result_bind]. rewrite fmap_insert.
    destruct sourceCode as [text |]; cbn [tableOf]; [| done].
    by rewrite getLocationByOffset_total.
Qed.

Lemma offsetTables_lookup sourceCodes key :
  offsetTables sourceCodes !! key = tableOf <$> sourceCodes !! key.
Proof. apply lookup_fmap. Qed.

(** No offset table has the key ["undefined"] or ["NaN"]. *)
Lemma tableOf_lookup_undefined sourceCode :
  tableOf sourceCode !! "undefined" = None.
Proof.
  destruct sourceCode; [apply offsetTable_lookup_undefined | done].
Qed.

Lemma tableOf_lookup_NaN sourceCode : tableOf sourceCode !! "NaN" = None.
Proof. destruct sourceCode; [apply offsetTable_lookup_NaN | done]. Qed.

(** ** Range resolution *)

Lemma strictNotEqual_false v k :
  strictNotEqual v k = false ↔ v = Some (Num k).
Proof.
  destruct v as [[| z] |]; cbn; try (split; [done | congruence]).
  rewrite negb_false_iff, Z.eqb_eq. split; [by intros -> | congruence].
Qed.

Lemma strictNotEqual_true v k :
  strictNotEqual v k = true ↔ v ≠ Some (Num k).
Proof.
  rewrite <- strictNotEqual_false. by destruct (strictNotEqual v k).
Qed.

Section RangeResolution.

Variable tables : gmap string LocationByOffset.
Variable sources : gmap string string.

Lemma resolveRange_unmapped e :
  unmapped tables e → resolveRange tables sources e = OK None.
Proof.
  unfold resolveRange. intros [Hfi | Hno].
  - apply strictNotEqual_false in Hfi. by rewrite Hfi.
  - rewrite Hno. cbn. by rewrite andb_false_r.
Qed.

Lemma resolveRange_outOfRange e :
  outOfRange tables e →
  resolveRange tables sources e
  = Throw (Error (outOfRangeMessage
                    (sources !! ToPropertyKey (fileIndex e)))).
Proof.
  unfold resolveRange. intros (Hfi & tbl & Htbl & Hmiss).
  apply strictNotEqual_true in Hfi. rewrite Hfi, Htbl. cbn.
  destruct Hmiss as [-> | ->]; [done |].
  by destruct (tbl !! ToPropertyKey (offset e)).
Qed.

(** These are the only ways not to produce a range. *)
Lemma resolveRange_OK_None e :
  resolveRange tables sources e = OK None → unmapped tables e.
Proof.
  unfold resolveRange, unmapped.
  destruct (strictNotEqual (fileIndex e) (-1)) eqn:Hfi;
    [| apply strictNotEqual_false in Hfi; by left].
  destruct (tables !! ToPropertyKey (fileIndex e)) as [tbl |]; [| by right].
  cbn. by repeat case_match.
Qed.

Lemma resolveRange_Throw e x :
  resolveRange tables sources e = Throw x →
  outOfRange tables e
  ∧ x = Error (outOfRangeMessage (sources !! ToPropertyKey (fileIndex e))).
Proof.
  unfold resolveRange, outOfRange.
  destruct (strictNotEqual (fileIndex e) (-1)) eqn:Hfi; [| done].
  apply strictNotEqual_true in Hfi.
  destruct (tables !! ToPropertyKey (fileIndex e)) as [tbl |]; [| done].
  cbn. intros Hx. split; [split; [done | exists tbl; split; [done |]] |].
  - destruct (tbl !! ToPropertyKey (offset e)); [| by left].
    destruct (tbl !! ToString (add (offset e) (length e))); [done | by right].
  - by repeat case_match; simplify_eq.
Qed.

(** ** The loop over the entries *)

Lemma eachEntry_body_OK st i entry range :
  resolveRange tables sources (parseEntry (lastParsedEntry st) entry)
  = OK range →
  eachEntry_body tables sources st i entry
  = OK {| lastParsedEntry := parseEntry (lastParsedEntry st) entry;
          instructionIndexToSourceRange :=
            match range with
            | Some sourceRange =>
                <[ToString (Num i) := sourceRange]>
                  (instructionIndexToSourceRange st)
            | None => instructionIndexToSourceRange st
            end |}.
Proof. intros Hr. unfold eachEntry_body. by rewrite Hr. Qed.

Lemma eachEntry_body_Throw st i entry x :
  resolveRange tables sources (parseEntry (lastParsedEntry st) entry)
  = Throw x →
  eachEntry_body tables sources st i entry = Throw x.
Proof. intros Hr. unfold eachEntry_body. by rewrite Hr. Qed.

(** The loop fails exactly at the first entry whose range resolution
    fails, with that entry's error. *)
Lemma eachEntry_Throw entries :
  ∀ i st j e x,
    deltaResolve (lastParsedEntry st) entries !! j = Some e →
    resolveRange tables sources e = Throw x →
    ∃ j' e' x',
      (j' ≤ j)%nat
      ∧ deltaResolve (lastParsedEntry st) entries !! j' = Some e'
      ∧ resolveRange tables sources e' = Throw x'
      ∧ (∀ j'' e'',
            (j'' < j')%nat →
            deltaResolve (lastParsedEntry st) entries !! j'' = Some e'' →
            ∃ range, resolveRange tables sources e'' = OK range)
      ∧ eachEntry tables sources i entries st = Throw x'.
Proof.
  induction entries as [| entry entries IH]; intros i st j e x He Hx;
    [done |].
  cbn [deltaResolve eachEntry] in *.
  destruct (resolveRange tables sources
              (parseEntry (lastParsedEntry st) entry)) as [range | x0]
    eqn:Hhead.
  - destruct j as [| j]; [simplify_eq/=; congruence |].
    rewrite (eachEntry_body_OK _ _ _ range) by done.
    cbn [mbind result_bind]. cbn in He.
    set (st1 := {| lastParsedEntry := _ |}).
    destruct (IH (i + 1) st1 j e x He Hx)
      as (j' & e' & x' & Hj & He' & Hx' & Hbefore & Hrun).
    exists (S j'), e', x'. split_and!; [lia | done | done | | done].
    intros [| j''] e'' Hj'' He''.
    + cbn in He''. simplify_eq. by exists range.
    + apply (Hbefore j'' e''); [lia | done].
  - exists 0%nat, (parseEntry (lastParsedEntry st) entry), x0.
    split_and!; [lia | done | done | intros; lia |].
    by rewrite (eachEntry_body_Throw _ _ _ x0).
Qed.

(** When the loop completes, the table holds, at the print of each
    index, the range of the entry resolved there, if it has one; no
    other key has changed. *)
Lemma eachEntry_OK entries :
  ∀ i st st',
    eachEntry tables sources i entries st = OK st' →
    (∀ j e,
        deltaResolve (lastParsedEntry st) entries !! j = Some e →
        ∃ range,
          resolveRange tables sources e = OK range
          ∧ instructionIndexToSourceRange st'
              !! ToString (Num (i + Z.of_nat j))
            = match range with
              | Some sourceRange => Some sourceRange
              | None =>
                  instructionIndexToSourceRange st
                    !! ToString (Num (i + Z.of_nat j))
              end)
    ∧ (∀ k, k < i →
            instructionIndexToSourceRange st' !! ToString (Num k)
            = instructionIndexToSourceRange st !! ToString (Num k)).
Proof.
  induction entries as [| entry entries IH]; intros i st st' Hrun.
  { cbn in Hrun. simplify_eq. split; [done | done]. }
  cbn [deltaResolve eachEntry] in *.
  destruct (resolveRange tables sources
              (parseEntry (lastParsedEntry st) entry)) as [range | x0]
    eqn:Hhead;
    [| by rewrite (eachEntry_body_Throw _ _ _ x0) in Hrun].
  rewrite (eachEntry_body_OK _ _ _ range) in Hrun by done.
  cbn [mbind result_bind] in Hrun.
  apply IH in Hrun as [Hnew Hold]. cbn [lastParsedEntry] in Hnew.
  cbn [instructionIndexToSourceRange] in Hnew, Hold. split.
  - intros j e He. destruct j as [| j].
    + cbn in He. simplify_eq. exists range. split; [done |].
      replace (i + Z.of_nat 0) with i by lia.
      rewrite Hold by lia. destruct range; [| done].
      by rewrite lookup_insert_eq.
    + cbn in He. destruct (Hnew j e He) as (r & Hr & Hlook).
      exists r. split; [done |].
      replace (i + Z.of_nat (S j)) with (i + 1 + Z.of_nat j) by lia.
      rewrite Hlook. destruct r; [done |].
      destruct range; [| done].
      apply lookup_insert_ne. key_neq.
  - intros k Hk. rewrite Hold by lia. destruct range; [| done].
    apply lookup_insert_ne. key_neq.
Qed.

End RangeResolution.

(** ** Re-keying by program counter *)

Lemma elem_of_keys {V} (o : gmap string V) key :
  key ∈ (map_to_list o).*1 ↔ is_Some (o !! key).
Proof.
  rewrite list_elem_of_fmap. split.
  - intros ([k v] & -> & Hin). apply elem_of_map_to_list in Hin. by exists v.
  - intros [v Hv]. exists (key, v). split; [done |].
    by apply elem_of_map_to_list.
Qed.

Lemma rekey_body_numeric pcToInstructionIndex tbl acc z :
  rekey_body pcToInstructionIndex tbl acc (ToString (Num z))
  = <[ToString (Num z) :=
        tbl !! ToPropertyKey (pcToInstructionIndex !! ToString (Num z))]> acc.
Proof. unfold rekey_body. by rewrite parseInt_ToString. Qed.

Lemma foldl_rekey_body_lookup pcToInstructionIndex tbl keys :
  ∀ acc key,
    (∀ k, k ∈ keys → ∃ z, k = ToString (Num z)) →
    foldl (rekey_body pcToInstructionIndex tbl) acc keys !! key
    = if decide (key ∈ keys)
      then Some (tbl !! ToPropertyKey (pcToInstructionIndex !! key))
      else acc !! key.
Proof.
  induction keys as [| k keys IH]; intros acc key Hnum.
  { cbn. by rewrite decide_False by apply not_elem_of_nil. }
  cbn [foldl]. rewrite IH by (intros k' Hk'; apply Hnum; by right).
  destruct (Hnum k ltac:(by left)) as [z ->].
  rewrite rekey_body_numeric.
  destruct (decide (key ∈ keys)) as [Hin | Hnin].
  - rewrite decide_True by (by right). done.
  - destruct (decide (key = ToString (Num z))) as [-> | Hne].
    + rewrite decide_True by (by left). by rewrite lookup_insert_eq.
    + rewrite decide_False by (by intros [? | ?]%elem_of_cons).
      by rewrite lookup_insert_ne.
Qed.

(** The output has one property per program counter of the mapping; its
    value is the range stored for that counter's instruction index, or
    [undefined]. *)
Lemma rekey_lookup (pcToInstructionIndex : gmap string number) tbl key :
  numericKeys pcToInstructionIndex →
  rekey pcToInstructionIndex tbl !! key
  = (λ instructionIndex, tbl !! ToString instructionIndex)
      <$> pcToInstructionIndex !! key.
Proof.
  intros Hnum. unfold rekey. rewrite foldl_rekey_body_lookup.
  - destruct (decide _) as [Hin | Hnin].
    + apply elem_of_keys in Hin as [idx Hidx]. by rewrite Hidx.
    + rewrite elem_of_keys, <- eq_None_not_Some in Hnin.
      by rewrite Hnin, lookup_empty.
  - intros k Hk. apply Hnum, elem_of_dom. by apply elem_of_keys.
Qed.

Lemma parseSourceMap_unfold bufferFromHex getPcToInstructionIndexMapping
    sourceCodes srcMap bytecodeHex sources :
  parseSourceMap bufferFromHex getPcToInstructionIndexMapping
    sourceCodes srcMap bytecodeHex sources
  = st ← eachEntry (offsetTables sourceCodes) sources 0
          (split ";" srcMap) initialState;
    OK (rekey (getPcToInstructionIndexMapping (bufferFromHex bytecodeHex))
          (instructionIndexToSourceRange st)).
Proof. unfold parseSourceMap. by rewrite indexSources_total. Qed.

(** ** The jump type *)

Lemma parseEntry_sameButJumpType last entry1 entry2 :
  sameButJumpType entry1 entry2 →
  parseEntry last entry1 = parseEntry last entry2.
Proof.
  intros Hsame. unfold parseEntry.
  by rewrite (Hsame 0%nat), (Hsame 1%nat), (Hsame 2%nat) by lia.
Qed.

Lemma eachEntry_sameButJumpType tables sources entries1 entries2 :
  Forall2 sameButJumpType entries1 entries2 →
  ∀ i st,
    eachEntry tables sources i entries1 st
    = eachEntry tables sources i entries2 st.
Proof.
  induction 1 as [| entry1 entry2 entries1 entries2 Hsame _ IH];
    intros i st; [done |].
  cbn [eachEntry]. unfold eachEntry_body.
  rewrite (parseEntry_sameButJumpType _ _ _ Hsame).
  destruct (resolveRange _ _ _); [| done]. cbn. apply IH.
Qed.

(** ** Fields that [parseInt] cannot read *)

Lemma digitValue_isDigit c : isDigit c = bool_decide (is_Some (digitValue c)).
Proof. by destruct c as [[] [] [] [] [] [] [] []]. Qed.

Lemma leadingDigits_nil s :
  leadingDigits s = []
  ↔ match s with
    | String c _ => isDigit c = false
    | EmptyString => True
    end.
Proof.
  destruct s as [| c s]; [done |]. cbn [leadingDigits].
  rewrite digitValue_isDigit.
  destruct (digitValue c); cbn; split; done.
Qed.

Lemma parseInt_dropSign input :
  isNaN (parseInt input)
  = bool_decide
      (leadingDigits (dropSign (trimStart (ToStringStr input))) = []).
Proof.
  unfold parseInt. destruct (trimStart (ToStringStr input)) as [| c rest].
  { done. }
  assert (∀ c rest,
    (let '(sign, rest0) :=
       match String c rest with
       | String "-" r => (-1, r)
       | String "+" r => (1, r)
       | _ => (1, String c rest)
       end in
     match leadingDigits rest0 with
     | [] => NaN
     | ds => Num (sign * mathInt ds)
     end)
    = match leadingDigits (dropSign (String c rest)) with
      | [] => NaN
      | ds => Num ((if bool_decide (c = "-"%char) then -1 else 1)
                   * mathInt ds)
      end) as ->.
  { intros c0 rest0. by destruct c0 as [[] [] [] [] [] [] [] []]. }
  by destruct (leadingDigits (dropSign (String c rest))).
Qed.

(** [parseInt] gives [NaN] exactly on the fields with no leading
    integer. *)
Lemma isNaN_parseInt input : isNaN (parseInt input) = noLeadingInteger input.
Proof.
  rewrite parseInt_dropSign. unfold noLeadingInteger.
  destruct (dropSign (trimStart (ToStringStr input))) as [| c rest] eqn:Hs;
    [done |].
  pose proof (leadingDigits_nil (String c rest)) as Hnil. cbn beta iota in Hnil.
  destruct (isDigit c); cbn.
  - apply bool_decide_eq_false. by rewrite Hnil.
  - apply bool_decide_eq_true. by rewrite Hnil.
Qed.

(** ** Delta resolution *)

(** A field stays what it was as long as the entries do not supply it. *)
Lemma deltaResolve_inherit (proj : SourceLocation → option number) (idx : nat) :
  (∀ last entry,
      noLeadingInteger (split ":" entry !! idx) = true →
      proj (parseEntry last entry) = proj last) →
  ∀ entries last (j : nat) e,
    fieldAbsentUpTo idx j entries →
    deltaResolve last entries !! j = Some e →
    proj e = proj last.
Proof.
  intros Hproj. induction entries as [| entry entries IH];
    intros last j e Habsent He; [done |].
  cbn [deltaResolve] in He.
  pose proof (Hproj last entry (Habsent 0%nat entry ltac:(lia) eq_refl))
    as Hhead.
  destruct j as [| j]; [by simplify_eq/= |].
  cbn in He. rewrite <- Hhead. apply (IH _ j); [| done].
  intros j' entry' Hj' Hentry'. apply (Habsent (S j')); [lia | done].
Qed.

Lemma parseEntry_offset last entry :
  offset (parseEntry last entry)
  = if noLeadingInteger (split ":" entry !! 0%nat) then offset last
    else Some (parseInt (split ":" entry !! 0%nat)).
Proof. unfold parseEntry. cbn. by rewrite isNaN_parseInt. Qed.

Lemma parseEntry_length last entry :
  length (parseEntry last entry)
  = if noLeadingInteger (split ":" entry !! 1%nat) then length last
    else Some (parseInt (split ":" entry !! 1%nat)).
Proof. unfold parseEntry. cbn. by rewrite isNaN_parseInt. Qed.

Lemma parseEntry_fileIndex last entry :
  fileIndex (parseEntry last entry)
  = if noLeadingInteger (split ":" entry !! 2%nat) then fileIndex last
    else Some (parseInt (split ":" entry !! 2%nat)).
Proof. unfold parseEntry. cbn. by rewrite isNaN_parseInt. Qed.

Lemma parseEntry_offset_absent last entry :
  noLeadingInteger (split ":" entry !! 0%nat) = true →
  offset (parseEntry last entry) = offset last.
Proof. intros H. by rewrite parseEntry_offset, H. Qed.

Lemma parseEntry_length_absent last entry :
  noLeadingInteger (split ":" entry !! 1%nat) = true →
  length (parseEntry last entry) = length last.
Proof. intros H. by rewrite parseEntry_length, H. Qed.

Lemma parseEntry_fileIndex_absent last entry :
  noLeadingInteger (split ":" entry !! 2%nat) = true →
  fileIndex (parseEntry last entry) = fileIndex last.
Proof. intros H. by rewrite parseEntry_fileIndex, H. Qed.

(** C4, as amended. A field is treated as absent exactly when it has no
    leading integer: after white space and one optional sign its text
    does not go on with a decimal digit.  The missing field, the empty
    field and a text such as [abc] are of this kind, without distinction;
    each of the three numeric fields of such a kind takes the value of
    the previous resolved entry, and delta resolution raises no error.
    Any other field, well formed or not, is read as the integer it
    starts with. *)
Theorem unreadable_field_inherits last entry :
  let fields := split ":" entry in
  let resolved := parseEntry last entry in
  offset resolved
  = (if noLeadingInteger (fields !! 0%nat) then offset last
     else Some (parseInt (fields !! 0%nat)))
  ∧ length resolved
    = (if noLeadingInteger (fields !! 1%nat) then length last
       else Some (parseInt (fields !! 1%nat)))
  ∧ fileIndex resolved
    = (if noLeadingInteger (fields !! 2%nat) then fileIndex last
       else Some (parseInt (fields !! 2%nat)))
  ∧ (∀ field, noLeadingInteger field = false → parseInt field ≠ NaN)
  ∧ noLeadingInteger None = true
  ∧ noLeadingInteger (Some "") = true
  ∧ noLeadingInteger (Some "abc") = true.
Proof.
  cbv zeta. split_and!; try done.
  - apply parseEntry_offset.
  - apply parseEntry_length.
  - apply parseEntry_fileIndex.
  - intros field Hfield Hnan. rewrite <- isNaN_parseInt, Hnan in Hfield.
    done.
Qed.

(** C4 fails as stated: the field [7x] is not a well-formed base-10
    integer, yet after the entry [10:5:0] the entry [7x] resolves to
    offset 7 instead of the inherited offset 10. *)
Lemma malformed_field_not_inherited :
  let last := parseEntry (lastParsedEntry initialState) "10:5:0" in
  wellFormedInteger "7x" = false
  ∧ split ":" "7x" !! 0%nat = Some "7x"
  ∧ offset last = Some (Num 10)
  ∧ offset (parseEntry last "7x") = Some (Num 7)
  ∧ offset (parseEntry last "7x") ≠ offset last.
Proof. cbv zeta. by split_and!. Qed.


(** An unmapped entry leaves no key in the table the loop ends with. *)
Lemma unmapped_not_a_key tables sources entries (i : nat) e st' :
  deltaResolve (lastParsedEntry initialState) entries !! i = Some e →
  unmapped tables e →
  eachEntry tables sources 0 entries initialState = OK st' →
  instructionIndexToSourceRange st' !! ToString (Num (Z.of_nat i)) = None.
Proof.
  intros He Hun Hrun.
  destruct (eachEntry_OK _ _ _ _ _ _ Hrun) as [Hnew _].
  destruct (Hnew i e He) as (range & Hrange & Hlook).
  rewrite (resolveRange_unmapped _ sources e Hun) in Hrange. simplify_eq.
  by rewrite Z.add_0_l in Hlook.
Qed.

(** An entry that reaches beyond the text of its file is out of range. *)
Lemma outOfRange_beyond_text sourceCodes e fi o l text :
  fileIndex e = Some (Num fi) → fi ≠ -1 →
  offset e = Some (Num o) → length e = Some (Num l) →
  sourceCodes !! ToString (Num fi) = Some (Some text) →
  Z.of_nat (String.length text) < o + l →
  outOfRange (offsetTables sourceCodes) e.
Proof.
  intros Hfi Hneq Ho Hl Hsrc Hlen. split; [rewrite Hfi; congruence |].
  exists (offsetTable text). rewrite Hfi, Ho, Hl.
  cbn [ToPropertyKey add ToNumber]. split.
  - rewrite offsetTables_lookup. by rewrite Hsrc.
  - right. apply offsetTable_lookup_Num_None. by right.
Qed.

(** ** The claims about the decoder *)

Section Claims.

Variable bufferFromHex : string → list Z.
Variable getPcToInstructionIndexMapping : list Z → gmap string number.

(** The decode fails as soon as one resolved entry is out of range, with
    the error of the first such entry. *)
Lemma parseSourceMap_first_out_of_range
    sourceCodes srcMap bytecodeHex sources (i : nat) e :
  resolvedEntries srcMap !! i = Some e →
  outOfRange (offsetTables sourceCodes) e →
  ∃ (j : nat) e',
    (j ≤ i)%nat
    ∧ resolvedEntries srcMap !! j = Some e'
    ∧ outOfRange (offsetTables sourceCodes) e'
    ∧ (∀ (j' : nat) e'',
          (j' < j)%nat → resolvedEntries srcMap !! j' = Some e'' →
          ¬ outOfRange (offsetTables sourceCodes) e'')
    ∧ parseSourceMap bufferFromHex getPcToInstructionIndexMapping
      sourceCodes srcMap bytecodeHex sources
      = Throw (Error (outOfRangeMessage
                        (sources !! ToPropertyKey (fileIndex e')))).
Proof.
  intros He Hout. rewrite parseSourceMap_unfold.
  pose proof (resolveRange_outOfRange _ sources e Hout) as Hthrow.
  destruct (eachEntry_Throw _ sources _ 0 initialState i e _ He Hthrow)
    as (j & e' & x' & Hj & He' & Hx' & Hbefore & Hrun).
  apply resolveRange_Throw in Hx' as [Hout' ->].
  exists j, e'. split_and!; [done | done | done | | by rewrite Hrun].
  intros j' e'' Hj' He'' Hout''.
  destruct (Hbefore j' e'' Hj' He'') as [range Hrange].
  by rewrite (resolveRange_outOfRange _ sources e'' Hout'') in Hrange.
Qed.

(** C1. If some resolved entry has a file index other than [-1] whose
    offset table exists, and its offset or its offset+length is not a
    key of that table, the whole decode fails and returns no table:
    [parseSourceMap] throws the out-of-range [Error], and the message
    ends with the name [sources] gives to the offending file, the file of
    the first entry that is out of range. *)
Theorem parseSourceMap_out_of_range
    sourceCodes srcMap bytecodeHex sources (i : nat) e :
  resolvedEntries srcMap !! i = Some e →
  outOfRange (offsetTables sourceCodes) e →
  ∃ (j : nat) e',
    (j ≤ i)%nat
    ∧ resolvedEntries srcMap !! j = Some e'
    ∧ outOfRange (offsetTables sourceCodes) e'
    ∧ (∀ (j' : nat) e'',
          (j' < j)%nat → resolvedEntries srcMap !! j' = Some e'' →
          ¬ outOfRange (offsetTables sourceCodes) e'')
    ∧ parseSourceMap bufferFromHex getPcToInstructionIndexMapping
      sourceCodes srcMap bytecodeHex sources
      = Throw (Error
                 ("Error while processing sourcemap: location out of range in "
                  +:+ ToStringStr
                        (sources !! ToPropertyKey (fileIndex e')))).
Proof.
  intros He Hout.
  destruct (parseSourceMap_first_out_of_range sourceCodes srcMap
              bytecodeHex sources i e He Hout)
    as (j & e' & Hj & He' & Hout' & Hfirst & Hrun).
  exists j, e'. by split_and!.
Qed.


(** C3. When the decode succeeds, the keys of the returned table are
    exactly the program counters of the mapping the collaborator
    returned: each of them is a key, whose value is a source range or
    [undefined], and there is no other key. *)
Theorem parseSourceMap_keys
    sourceCodes srcMap bytecodeHex sources pcsToSourceRange :
  numericKeys (getPcToInstructionIndexMapping (bufferFromHex bytecodeHex)) →
  parseSourceMap bufferFromHex getPcToInstructionIndexMapping
      sourceCodes srcMap bytecodeHex sources
  = OK pcsToSourceRange →
  dom pcsToSourceRange
  = dom (getPcToInstructionIndexMapping (bufferFromHex bytecodeHex)).
Proof.
  intros Hnum. rewrite parseSourceMap_unfold.
  destruct (eachEntry _ _ _ _ _) as [st |]; [| done].
  cbn. intros [= <-]. apply set_eq. intros key.
  by rewrite !elem_of_dom, rekey_lookup, fmap_is_Some.
Qed.

(** C9. Two source maps with the same number of entries, whose entries
    agree pairwise on their first three fields, decode to the same
    result: the jump-type field has no influence. *)
Theorem parseSourceMap_ignores_jumpType
    sourceCodes srcMap1 srcMap2 bytecodeHex sources :
  Forall2 sameButJumpType (split ";" srcMap1) (split ";" srcMap2) →
  parseSourceMap bufferFromHex getPcToInstructionIndexMapping
      sourceCodes srcMap1 bytecodeHex sources
  = parseSourceMap bufferFromHex getPcToInstructionIndexMapping
      sourceCodes srcMap2 bytecodeHex sources.
Proof.
  intros Hsame. rewrite !parseSourceMap_unfold.
  by rewrite (eachEntry_sameButJumpType _ _ _ _ Hsame).
Qed.

(** C10. When [sourceCodes] has a property for a file index whose value
    is [undefined], that file index gets the empty offset table: every
    resolved entry that refers to it (the index not being [-1]) fails
    range resolution with the out-of-range [Error] naming that file, and
    the decode throws the error of the first out-of-range entry, which
    is this one unless an earlier entry is out of range; were the
    property absent, the same entry would be unmapped without error. *)
Theorem undefined_source_is_fatal
    sourceCodes srcMap bytecodeHex sources (i : nat) e :
  resolvedEntries srcMap !! i = Some e →
  fileIndex e ≠ Some (Num (-1)) →
  sourceCodes !! ToPropertyKey (fileIndex e) = Some None →
  offsetTables sourceCodes !! ToPropertyKey (fileIndex e) = Some ∅
  ∧ resolveRange (offsetTables sourceCodes) sources e
    = Throw (Error
               ("Error while processing sourcemap: location out of range in "
                +:+ ToStringStr (sources !! ToPropertyKey (fileIndex e))))
  ∧ (∃ (j : nat) e',
        (j ≤ i)%nat
        ∧ resolvedEntries srcMap !! j = Some e'
        ∧ outOfRange (offsetTables sourceCodes) e'
        ∧ (∀ (j' : nat) e'',
              (j' < j)%nat → resolvedEntries srcMap !! j' = Some e'' →
              ¬ outOfRange (offsetTables sourceCodes) e'')
        ∧ parseSourceMap bufferFromHex getPcToInstructionIndexMapping
            sourceCodes srcMap bytecodeHex sources
          = Throw (Error
                     ("Error while processing sourcemap: location out of range in "
                      +:+ ToStringStr
                            (sources !! ToPropertyKey (fileIndex e')))))
  ∧ resolveRange
      (offsetTables (delete (ToPropertyKey (fileIndex e)) sourceCodes))
      sources e
    = OK None.
Proof.
  intros He Hfi Hsrc.
  assert (offsetTables sourceCodes !! ToPropertyKey (fileIndex e) = Some ∅)
    as Htbl by (by rewrite offsetTables_lookup, Hsrc).
  assert (outOfRange (offsetTables sourceCodes) e) as Hout.
  { split; [done |]. exists ∅. split; [done |]. left. apply lookup_empty. }
  split_and!; [done | by apply resolveRange_outOfRange | |].
  - destruct (parseSourceMap_first_out_of_range sourceCodes srcMap
                bytecodeHex sources i e He Hout)
      as (j & e' & Hj & He' & Hout' & Hfirst & Hrun).
    exists j, e'. by split_and!.
  - apply resolveRange_unmapped. right.
    by rewrite offsetTables_lookup, lookup_delete_eq.
Qed.

(** C5, as amended. Delta resolution itself never fails.  A numeric
    field that no entry up to position [j] supplies is undefined in the
    entry resolved at [j]: the unset state of the first entry is handed
    on until a value appears.  While the file index is undefined the
    entry is unmapped, without error and without a key in the
    instruction-index table ([sourceCodes] having no property named
    [undefined]).  But an entry whose file index is supplied and has an
    offset table, while its offset or length is still undefined, misses
    its range lookup: range resolution throws the out-of-range [Error]
    and the decode fails. *)
Theorem unset_fields_propagate
    sourceCodes srcMap bytecodeHex sources (j : nat) e :
  resolvedEntries srcMap !! j = Some e →
  (fieldAbsentUpTo 0 j (split ";" srcMap) → offset e = None)
  ∧ (fieldAbsentUpTo 1 j (split ";" srcMap) → length e = None)
  ∧ (fieldAbsentUpTo 2 j (split ";" srcMap) → fileIndex e = None)
  ∧ (fileIndex e = None → sourceCodes !! "undefined" = None →
     resolveRange (offsetTables sourceCodes) sources e = OK None
     ∧ ∀ st',
         eachEntry (offsetTables sourceCodes) sources 0
           (split ";" srcMap) initialState = OK st' →
         instructionIndexToSourceRange st' !! ToString (Num (Z.of_nat j))
         = None)
  ∧ (fileIndex e ≠ Some (Num (-1)) →
     is_Some (sourceCodes !! ToPropertyKey (fileIndex e)) →
     offset e = None ∨ length e = None →
     resolveRange (offsetTables sourceCodes) sources e
     = Throw (Error
                ("Error while processing sourcemap: location out of range in "
                 +:+ ToStringStr (sources !! ToPropertyKey (fileIndex e))))
     ∧ ∃ e',
         parseSourceMap bufferFromHex getPcToInstructionIndexMapping
           sourceCodes srcMap bytecodeHex sources
         = Throw (Error
                    ("Error while processing sourcemap: location out of range in "
                     +:+ ToStringStr
                           (sources !! ToPropertyKey (fileIndex e'))))).
Proof.
  intros He. split_and!.
  - intros Habsent.
    apply (deltaResolve_inherit offset 0 parseEntry_offset_absent
             _ _ j e Habsent He).
  - intros Habsent.
    apply (deltaResolve_inherit length 1 parseEntry_length_absent
             _ _ j e Habsent He).
  - intros Habsent.
    apply (deltaResolve_inherit fileIndex 2 parseEntry_fileIndex_absent
             _ _ j e Habsent He).
  - intros Hfi Hno.
    assert (unmapped (offsetTables sourceCodes) e) as Hun.
    { right. rewrite Hfi, offsetTables_lookup. cbn [ToPropertyKey].
      by rewrite Hno. }
    split; [by apply resolveRange_unmapped |].
    intros st'. by apply (unmapped_not_a_key _ _ _ _ e).
  - intros Hfi [sourceCode Hsrc] Hunset.
    assert (outOfRange (offsetTables sourceCodes) e) as Hout.
    { split; [done |]. exists (tableOf sourceCode).
      split; [by rewrite offsetTables_lookup, Hsrc |].
      destruct Hunset as [-> | ->].
      - left. apply tableOf_lookup_undefined.
      - right. replace (add (offset e) None) with NaN
          by (unfold add; by destruct (ToNumber (offset e))).
        apply tableOf_lookup_NaN. }
    split; [by apply resolveRange_outOfRange |].
    destruct (parseSourceMap_first_out_of_range sourceCodes srcMap
                bytecodeHex sources j e He Hout)
      as (j' & e' & _ & _ & _ & _ & Hrun).
    by exists e'.
Qed.

End Claims.

(** ** The theorems at concrete inputs *)

(** The end-to-end example of the specification: one instruction at
    program counter 0, mapped to the first ten characters of [C.sol]. *)
Example parseSourceMap_end_to_end :
  parseSourceMap (λ _, []) (λ _, {["0" := Num 0]})
    {["0" := Some "contract C { function f() public {} }"]}
    "0:10:0:-" "00" {["0" := "C.sol"]}
  = OK {["0" :=
          Some {| location :=
                    {| start := {| line := 1; column := 0 |};
                       end_ := {| line := 1; column := 10 |} |};
                  fileName := Some "C.sol" |}]}.
Proof. vm_compute. reflexivity. Qed.

(** Offsets 4 and 6 of the text [abc\ndef]. *)
Example getLocationByOffset_abc_def :
  let tbl := offsetTable (insertAt 3 newline "abcdef") in
  tbl !! "4" = Some {| line := 2; column := 0 |}
  ∧ tbl !! "6" = Some {| line := 2; column := 2 |}.
Proof. vm_compute. by split. Qed.

Lemma parseSourceMap_out_of_range_witness :
  ∃ (j : nat) e',
    (j ≤ 0)%nat
    ∧ resolvedEntries "0:10:0:-" !! j = Some e'
    ∧ outOfRange (offsetTables {["0" := Some "abc"]}) e'
    ∧ (∀ (j' : nat) e'',
          (j' < j)%nat → resolvedEntries "0:10:0:-" !! j' = Some e'' →
          ¬ outOfRange (offsetTables {["0" := Some "abc"]}) e'')
    ∧ parseSourceMap (λ _, []) (λ _, {["0" := Num 0]})
        {["0" := Some "abc"]} "0:10:0:-" "00" {["0" := "C.sol"]}
      = Throw (Error
                 ("Error while processing sourcemap: location out of range in "
                  +:+ ToStringStr
                        (({["0" := "C.sol"]} : gmap string string)
                           !! ToPropertyKey (fileIndex e')))).
Proof.
  apply (parseSourceMap_out_of_range (λ _, []) (λ _, {["0" := Num 0]})
           {["0" := Some "abc"]} "0:10:0:-" "00" {["0" := "C.sol"]} 0
           {| offset := Some (Num 0); length := Some (Num 10);
              fileIndex := Some (Num 0) |}).
  - reflexivity.
  - by apply (outOfRange_beyond_text _ _ 0 0 10 "abc").
Defined.


Lemma parseSourceMap_keys_witness :
  ∃ pcsToSourceRange,
    parseSourceMap (λ _, []) (λ _, {["0" := Num 0; "2" := Num 1]})
      {["0" := Some "abc"]} "0:1:0;:2:-1" "6000" {["0" := "C.sol"]}
    = OK pcsToSourceRange
    ∧ dom pcsToSourceRange
      = dom ({["0" := Num 0; "2" := Num 1]} : gmap string number).
Proof.
  eexists. split; [vm_compute; reflexivity |].
  apply (parseSourceMap_keys (λ _, []) (λ _, {["0" := Num 0; "2" := Num 1]})
           {["0" := Some "abc"]} "0:1:0;:2:-1" "6000" {["0" := "C.sol"]}).
  - intros key Hkey. rewrite dom_insert_L, dom_singleton_L in Hkey.
    apply elem_of_union in Hkey as [Hkey | Hkey].
    + apply elem_of_singleton in Hkey as ->. by exists 0.
    + apply elem_of_singleton in Hkey as ->. by exists 2.
  - vm_compute. reflexivity.
Defined.

Lemma parseSourceMap_ignores_jumpType_witness :
  parseSourceMap (λ _, []) (λ _, {["0" := Num 0; "2" := Num 1]})
    {["0" := Some "abc"]} "0:1:0:i;1:2:0:o" "6000" {["0" := "C.sol"]}
  = parseSourceMap (λ _, []) (λ _, {["0" := Num 0; "2" := Num 1]})
      {["0" := Some "abc"]} "0:1:0:-;1:2:0" "6000" {["0" := "C.sol"]}.
Proof.
  apply parseSourceMap_ignores_jumpType.
  repeat constructor;
    intros [| [| [| k]]] Hk; first [reflexivity | exfalso; lia].
Defined.

Lemma undefined_source_is_fatal_witness :
  let sourceCodes : gmap string (option string) := {["0" := None]} in
  let sources : gmap string string := {["0" := "C.sol"]} in
  let e := {| offset := Some (Num 0); length := Some (Num 1);
              fileIndex := Some (Num 0) |} in
  offsetTables sourceCodes !! ToPropertyKey (fileIndex e) = Some ∅
  ∧ resolveRange (offsetTables sourceCodes) sources e
    = Throw (Error
               ("Error while processing sourcemap: location out of range in "
                +:+ ToStringStr (sources !! ToPropertyKey (fileIndex e))))
  ∧ (∃ (j : nat) e',
        (j ≤ 0)%nat
        ∧ resolvedEntries "0:1:0" !! j = Some e'
        ∧ outOfRange (offsetTables sourceCodes) e'
        ∧ (∀ (j' : nat) e'',
              (j' < j)%nat → resolvedEntries "0:1:0" !! j' = Some e'' →
              ¬ outOfRange (offsetTables sourceCodes) e'')
        ∧ parseSourceMap (λ _, []) (λ _, {["0" := Num 0]})
            sourceCodes "0:1:0" "00" sources
          = Throw (Error
                     ("Error while processing sourcemap: location out of range in "
                      +:+ ToStringStr
                            (sources !! ToPropertyKey (fileIndex e')))))
  ∧ resolveRange
      (offsetTables (delete (ToPropertyKey (fileIndex e)) sourceCodes))
      sources e
    = OK None.
Proof.
  apply (undefined_source_is_fatal (λ _, []) (λ _, {["0" := Num 0]})
           {["0" := None]} "0:1:0" "00" {["0" := "C.sol"]} 0).
  - reflexivity.
  - discriminate.
  - reflexivity.
Defined.

(** C5 fails as stated: the first entry of [:2:0] leaves its offset
    absent and names the indexed file 0; the decode throws. *)
Lemma first_entry_unset_offset_is_fatal :
  split ":" ":2:0" !! 0%nat = Some ""
  ∧ resolvedEntries ":2:0"
    = [ {| offset := None; length := Some (Num 2);
           fileIndex := Some (Num 0) |} ]
  ∧ parseSourceMap (λ _, []) (λ _, {["0" := Num 0]})
      {["0" := Some "hello"]} ":2:0" "00" {["0" := "C.sol"]}
    = Throw (Error
               "Error while processing sourcemap: location out of range in C.sol").
Proof. split_and!; [reflexivity | reflexivity | vm_compute; reflexivity]. Qed.

Lemma unset_fields_propagate_witness :
  (∃ e,
      resolvedEntries "::;:3:;1:2:0" !! 1%nat = Some e
      ∧ offset e = None
      ∧ fileIndex e = None
      ∧ resolveRange (offsetTables {["0" := Some "hello"]})
          {["0" := "C.sol"]} e
        = OK None)
  ∧ (∃ e, resolvedEntries "::;:3:;1:2:0" !! 0%nat = Some e ∧ length e = None)
  ∧ (∃ e message,
        resolvedEntries ":2:0" !! 0%nat = Some e
        ∧ resolveRange (offsetTables {["0" := Some "hello"]})
            {["0" := "C.sol"]} e
          = Throw (Error
                     "Error while processing sourcemap: location out of range in C.sol")
        ∧ parseSourceMap (λ _, []) (λ _, {["0" := Num 0]})
            {["0" := Some "hello"]} ":2:0" "00" {["0" := "C.sol"]}
          = Throw (Error message)).
Proof.
  split_and!.
  - exists {| offset := None; length := Some (Num 3); fileIndex := None |}.
    destruct (unset_fields_propagate (λ _, []) (λ _, {["0" := Num 0]})
                {["0" := Some "hello"]} "::;:3:;1:2:0" "00"
                {["0" := "C.sol"]} 1
                {| offset := None; length := Some (Num 3);
                   fileIndex := None |} eq_refl)
      as (Hoffset & _ & HfileIndex & Hunmapped & _).
    split_and!; [reflexivity | | |].
    + apply Hoffset. intros [| [| j']] entry Hj' Hentry;
        [by injection Hentry as <- | by injection Hentry as <- | exfalso; lia].
    + apply HfileIndex. intros [| [| j']] entry Hj' Hentry;
        [by injection Hentry as <- | by injection Hentry as <- | exfalso; lia].
    + apply Hunmapped; reflexivity.
  - exists {| offset := None; length := None; fileIndex := None |}.
    destruct (unset_fields_propagate (λ _, []) (λ _, {["0" := Num 0]})
                {["0" := Some "hello"]} "::;:3:;1:2:0" "00"
                {["0" := "C.sol"]} 0
                {| offset := None; length := None; fileIndex := None |}
                eq_refl)
      as (_ & Hlength & _).
    split; [reflexivity |].
    apply Hlength. intros [| j'] entry Hj' Hentry;
      [by injection Hentry as <- | exfalso; lia].
  - exists {| offset := None; length := Some (Num 2);
              fileIndex := Some (Num 0) |}.
    destruct (unset_fields_propagate (λ _, []) (λ _, {["0" := Num 0]})
                {["0" := Some "hello"]} ":2:0" "00"
                {["0" := "C.sol"]} 0
                {| offset := None; length := Some (Num 2);
                   fileIndex := Some (Num 0) |} eq_refl)
      as (_ & _ & _ & _ & Hfatal).
    destruct Hfatal as [Hthrow [e' Hrun]];
      [discriminate | by eexists | by left |].
    eexists. split_and!; [reflexivity | exact Hthrow | exact Hrun].
Defined.

(** * Further properties of the offset indexer *)

Lemma chars_app s t : chars (s +:+ t) = (chars s ++ chars t)%list.
Proof.
  induction s as [| c s IH]; [done |].
  change (c :: chars (s +:+ t) = c :: (chars s ++ chars t)%list).
  by rewrite IH.
Qed.

Lemma countNewlines_cons c cs :
  countNewlines (c :: cs)
  = ((if bool_decide (c = newline) then 1 else 0) + countNewlines cs)%nat.
Proof.
  unfold countNewlines. rewrite filter_cons.
  case_bool_decide; by rewrite ?decide_True, ?decide_False by done.
Qed.

Lemma line_foldl_advance cs :
  ∀ pos, line (foldl advance pos cs) = line pos + Z.of_nat (countNewlines cs).
Proof.
  induction cs as [| c cs IH]; intros pos.
  { cbn. lia. }
  cbn [foldl]. rewrite IH, countNewlines_cons. unfold advance, newline. cbn.
  case_bool_decide; lia.
Qed.

Lemma foldl_advance_no_newline cs :
  ∀ pos,
    newline ∉ cs →
    foldl advance pos cs
    = {| line := line pos;
         column := column pos + Z.of_nat (List.length cs) |}.
Proof.
  induction cs as [| c cs IH]; intros pos Hno.
  { cbn. destruct pos. cbn. f_equal. lia. }
  apply not_elem_of_cons in Hno as [Hc Hno].
  cbn [foldl]. rewrite IH by done. unfold advance. cbn.
  rewrite bool_decide_eq_false_2 by (intros ->; by apply Hc).
  f_equal; cbn [List.length]; lia.
Qed.

Lemma column_after_newline pos cs :
  last cs = Some newline → column (foldl advance pos cs) = 0.
Proof.
  intros Hlast. apply last_Some in Hlast as [cs' ->].
  rewrite foldl_app. cbn. done.
Qed.

(** X1. What the table records.  Split the first [k] characters of a
    text into [pre ++ rest], where [rest] has no newline and [pre] is
    empty or ends with a newline: the position at offset [k] has line
    1 + the number of newlines of [pre], and column the number of
    characters of [rest]. *)
Theorem getLocationByOffset_line_column
    (T : string) (pre rest suffix : list ascii) :
  chars T = (pre ++ rest ++ suffix)%list →
  newline ∉ rest →
  pre = [] ∨ last pre = Some newline →
  ∃ tbl : LocationByOffset,
    getLocationByOffset T = OK tbl
    ∧ tbl !! ToString (Num (Z.of_nat (List.length pre + List.length rest)))
      = Some {| line := 1 + Z.of_nat (countNewlines pre);
                column := Z.of_nat (List.length rest) |}.
Proof.
  intros HT Hrest Hpre. exists (offsetTable T).
  split; [apply getLocationByOffset_total |].
  rewrite offsetTable_lookup.
  2:{ rewrite <- length_chars, HT, !length_app. lia. }
  f_equal. unfold positionAt. rewrite HT, app_assoc, <- length_app.
  rewrite take_app_length, foldl_app, foldl_advance_no_newline by done.
  rewrite line_foldl_advance. cbn [line]. f_equal.
  destruct Hpre as [-> | Hlast]; [done |].
  by rewrite column_after_newline.
Qed.

Lemma getLocationByOffset_line_column_witness :
  ∃ tbl : LocationByOffset,
    getLocationByOffset (insertAt 2 newline "abcd") = OK tbl
    ∧ tbl !! ToString (Num (Z.of_nat (3 + 1)))
      = Some {| line := 1 + Z.of_nat (countNewlines (chars "ab" ++ [newline]));
                column := Z.of_nat 1 |}.
Proof.
  apply (getLocationByOffset_line_column (insertAt 2 newline "abcd")
           (chars "ab" ++ [newline]) (chars "c") (chars "d")).
  - reflexivity.
  - intros Hin. by repeat (apply elem_of_cons in Hin as [Hin | Hin];
      [discriminate Hin |]); apply not_elem_of_nil in Hin.
  - right. reflexivity.
Defined.

Lemma foldl_advance_bounds cs :
  ∀ pos,
    let pos' := foldl advance pos cs in
    line pos ≤ line pos'
    ∧ (0 ≤ column pos →
       0 ≤ column pos'
       ∧ line pos' + column pos'
         ≤ line pos + column pos + Z.of_nat (List.length cs)).
Proof.
  induction cs as [| c cs IH]; intros pos; cbn zeta.
  { cbn. lia. }
  cbn [foldl List.length]. specialize (IH (advance pos c)). cbn zeta in IH.
  assert (line (advance pos c)
          = line pos + (if bool_decide (c = newline) then 1 else 0))
    as Hl by done.
  assert (column (advance pos c)
          = if bool_decide (c = newline) then 0 else column pos + 1)
    as Hc by done.
  destruct (bool_decide (c = newline)); lia.
Qed.

(** X2. Every recorded position is in bounds: at offset [k] the line is
    at least 1, the column at least 0, and lines passed plus column do
    not exceed [k]. *)
Theorem getLocationByOffset_bounds (T : string) (k : nat) :
  (k ≤ String.length T)%nat →
  ∃ (tbl : LocationByOffset) pos,
    getLocationByOffset T = OK tbl
    ∧ tbl !! ToString (Num (Z.of_nat k)) = Some pos
    ∧ 1 ≤ line pos
    ∧ 0 ≤ column pos
    ∧ (line pos - 1) + column pos ≤ Z.of_nat k.
Proof.
  intros Hk. exists (offsetTable T), (positionAt T k).
  split; [apply getLocationByOffset_total |].
  split; [by apply offsetTable_lookup |].
  unfold positionAt.
  pose proof (foldl_advance_bounds (take k (chars T))
                {| line := 1; column := 0 |}) as Hb.
  cbn zeta in Hb. cbn [line column] in Hb.
  rewrite length_take, length_chars in Hb. lia.
Qed.

Lemma getLocationByOffset_bounds_witness :
  ∃ (tbl : LocationByOffset) pos,
    getLocationByOffset (insertAt 2 newline "abcd") = OK tbl
    ∧ tbl !! ToString (Num (Z.of_nat 4)) = Some pos
    ∧ 1 ≤ line pos
    ∧ 0 ≤ column pos
    ∧ (line pos - 1) + column pos ≤ Z.of_nat 4.
Proof.
  apply (getLocationByOffset_bounds (insertAt 2 newline "abcd") 4).
  cbn. lia.
Defined.

Lemma lexLt_advance pos c : lexLt pos (advance pos c).
Proof.
  unfold lexLt, advance. cbn. case_bool_decide; [left | right]; lia.
Qed.

Lemma lexLt_trans p q r : lexLt p q → lexLt q r → lexLt p r.
Proof. unfold lexLt. lia. Qed.

Lemma lexLt_irrefl p : ¬ lexLt p p.
Proof. unfold lexLt. lia. Qed.

Lemma lexLt_foldl_advance cs :
  ∀ pos, cs ≠ [] → lexLt pos (foldl advance pos cs).
Proof.
  induction cs as [| c cs IH]; intros pos Hne; [done |].
  cbn [foldl]. destruct cs as [| c' cs]; [apply lexLt_advance |].
  eapply lexLt_trans; [apply lexLt_advance | by apply IH].
Qed.

(** X3. Positions grow strictly with the offset, in lexicographic order:
    a later offset is recorded on a later line, or on the same line at a
    greater column.  Hence two offsets never share a position. *)
Theorem getLocationByOffset_strictly_increasing (T : string) (j k : nat) :
  (j < k)%nat → (k ≤ String.length T)%nat →
  ∃ (tbl : LocationByOffset) p q,
    getLocationByOffset T = OK tbl
    ∧ tbl !! ToString (Num (Z.of_nat j)) = Some p
    ∧ tbl !! ToString (Num (Z.of_nat k)) = Some q
    ∧ lexLt p q
    ∧ p ≠ q.
Proof.
  intros Hjk Hk.
  exists (offsetTable T), (positionAt T j), (positionAt T k).
  assert (lexLt (positionAt T j) (positionAt T k)) as Hlt.
  { unfold positionAt.
    rewrite <- (take_drop j (take k (chars T))), take_take, Nat.min_l by lia.
    rewrite foldl_app. apply lexLt_foldl_advance.
    intros Hnil. apply (f_equal List.length) in Hnil.
    rewrite length_drop, length_take, length_chars in Hnil.
    cbn in Hnil. lia. }
  split_and!; [apply getLocationByOffset_total | | | done |].
  - apply offsetTable_lookup. lia.
  - by apply offsetTable_lookup.
  - intros Heq. rewrite Heq in Hlt. by apply lexLt_irrefl in Hlt.
Qed.

Lemma getLocationByOffset_strictly_increasing_witness :
  ∃ (tbl : LocationByOffset) p q,
    getLocationByOffset (insertAt 2 newline "abcd") = OK tbl
    ∧ tbl !! ToString (Num (Z.of_nat 2)) = Some p
    ∧ tbl !! ToString (Num (Z.of_nat 3)) = Some q
    ∧ lexLt p q
    ∧ p ≠ q.
Proof.
  apply (getLocationByOffset_strictly_increasing
           (insertAt 2 newline "abcd") 2 3); cbn; lia.
Defined.

(** X4. Appending text leaves the recorded positions alone: the table
    of a text is included in the table of any extension of it. *)
Theorem getLocationByOffset_prefix (s t : string) :
  ∃ tbl tbl' : LocationByOffset,
    getLocationByOffset s = OK tbl
    ∧ getLocationByOffset (s +:+ t) = OK tbl'
    ∧ tbl ⊆ tbl'.
Proof.
  exists (offsetTable s), (offsetTable (s +:+ t)).
  split_and!; try apply getLocationByOffset_total.
  apply map_subseteq_spec. intros key pos Hkey.
  destruct (proj1 (offsetTable_is_Some s key) (mk_is_Some _ _ Hkey))
    as (z & Hz & ->).
  replace z with (Z.of_nat (Z.to_nat z)) in * by lia.
  rewrite offsetTable_lookup in Hkey by lia.
  rewrite offsetTable_lookup.
  2:{ rewrite <- length_chars, chars_app, length_app, length_chars. lia. }
  rewrite <- Hkey. f_equal. unfold positionAt.
  rewrite chars_app, take_app_le by (rewrite length_chars; lia). done.
Qed.

(** * Further properties of the decoder *)

Section Loop.

Variable tables : gmap string LocationByOffset.
Variable sources : gmap string string.

(** An exception of the loop is the exception of range resolution at an
    entry. *)
Lemma eachEntry_Throw_inv entries :
  ∀ i st x,
    eachEntry tables sources i entries st = Throw x →
    ∃ (j : nat) e,
      deltaResolve (lastParsedEntry st) entries !! j = Some e
      ∧ resolveRange tables sources e = Throw x.
Proof.
  induction entries as [| entry entries IH]; intros i st x Hrun; [done |].
  cbn [deltaResolve eachEntry] in *.
  destruct (resolveRange tables sources
              (parseEntry (lastParsedEntry st) entry)) as [range | x0]
    eqn:Hhead.
  - rewrite (eachEntry_body_OK _ _ _ _ _ range) in Hrun by done.
    cbn [mbind result_bind] in Hrun.
    apply IH in Hrun as (j & e & He & Hx). by exists (S j), e.
  - rewrite (eachEntry_body_Throw _ _ _ _ _ x0) in Hrun by done.
    cbn in Hrun. simplify_eq.
    by exists 0%nat, (parseEntry (lastParsedEntry st) entry).
Qed.

(** A property of the final table was there at the start or was written
    for one of the entries. *)
Lemma eachEntry_keys entries :
  ∀ i st st' key r,
    eachEntry tables sources i entries st = OK st' →
    instructionIndexToSourceRange st' !! key = Some r →
    instructionIndexToSourceRange st !! key = Some r
    ∨ ∃ (j : nat) e,
        key = ToString (Num (i + Z.of_nat j))
        ∧ deltaResolve (lastParsedEntry st) entries !! j = Some e
        ∧ resolveRange tables sources e = OK (Some r).
Proof.
  induction entries as [| entry entries IH]; intros i st st' key r Hrun Hkey.
  { cbn in Hrun. simplify_eq. by left. }
  cbn [deltaResolve eachEntry] in *.
  destruct (resolveRange tables sources
              (parseEntry (lastParsedEntry st) entry)) as [range | x0]
    eqn:Hhead;
    [| by rewrite (eachEntry_body_Throw _ _ _ _ _ x0) in Hrun].
  rewrite (eachEntry_body_OK _ _ _ _ _ range) in Hrun by done.
  cbn [mbind result_bind] in Hrun.
  destruct (IH _ _ _ _ _ Hrun Hkey) as [Hst1 | (j & e & -> & He & Hr)].
  - cbn [instructionIndexToSourceRange] in Hst1.
    destruct range as [sourceRange |]; [| by left].
    destruct (decide (key = ToString (Num i))) as [-> | Hne].
    + rewrite lookup_insert_eq in Hst1. simplify_eq.
      right. exists 0%nat, (parseEntry (lastParsedEntry st) entry).
      split_and!; [| done | done]. do 2 f_equal. lia.
    + rewrite lookup_insert_ne in Hst1 by done. by left.
  - right. exists (S j), e. split_and!; [| done | done].
    do 2 f_equal. lia.
Qed.

(** X6. When the loop over the entries completes, the instruction-index
    table has exactly one property per mapped entry: [key] holds the
    range [r] if and only if [key] is the print of the position of an
    entry whose range resolution gave [r]. *)
Theorem eachEntry_table entries st' :
  eachEntry tables sources 0 entries initialState = OK st' →
  ∀ key r,
    instructionIndexToSourceRange st' !! key = Some r
    ↔ ∃ (i : nat) e,
        key = ToString (Num (Z.of_nat i))
        ∧ deltaResolve (lastParsedEntry initialState) entries !! i = Some e
        ∧ resolveRange tables sources e = OK (Some r).
Proof.
  intros Hrun key r. split.
  - intros Hkey.
    destruct (eachEntry_keys _ _ _ _ _ _ Hrun Hkey)
      as [Hinit | (j & e & -> & He & Hr)]; [done |].
    exists j, e. by rewrite Z.add_0_l.
  - intros (i & e & -> & He & Hr).
    destruct (eachEntry_OK _ _ _ _ _ _ Hrun) as [Hnew _].
    destruct (Hnew i e He) as (range & Hrange & Hlook).
    rewrite Hr in Hrange. simplify_eq. by rewrite Z.add_0_l in Hlook.
Qed.

End Loop.

Lemma eachEntry_table_witness :
  let r := {| location :=
                {| start := {| line := 1; column := 0 |};
                   end_ := {| line := 1; column := 1 |} |};
              fileName := Some "C.sol" |} in
  <[ "0" := r ]> (∅ : gmap string SourceRange) !! "0" = Some r
  ↔ ∃ (i : nat) e,
      "0" = ToString (Num (Z.of_nat i))
      ∧ deltaResolve (lastParsedEntry initialState) (split ";" "0:1:0;:2:-1")
          !! i = Some e
      ∧ resolveRange (offsetTables {["0" := Some "abc"]})
          {["0" := "C.sol"]} e = OK (Some r).
Proof.
  intros r.
  assert (eachEntry (offsetTables {["0" := Some "abc"]}) {["0" := "C.sol"]}
            0 (split ";" "0:1:0;:2:-1") initialState
          = OK {| lastParsedEntry :=
                    {| offset := Some (Num 0); length := Some (Num 2);
                       fileIndex := Some (Num (-1)) |};
                  instructionIndexToSourceRange := <[ "0" := r ]> ∅ |})
    as Hrun by (vm_compute; reflexivity).
  exact (eachEntry_table _ _ _ _ Hrun "0" r).
Defined.

(** X5. The decode fails only in one way.  It returns a table exactly
    when no resolved entry is out of range; and whatever it throws is
    the out-of-range [Error] of an out-of-range entry, never anything
    else. *)
Theorem parseSourceMap_fails_only_out_of_range
    (bufferFromHex : string → list Z)
    (getPcToInstructionIndexMapping : list Z → gmap string number)
    sourceCodes srcMap bytecodeHex sources :
  ((∃ pcsToSourceRange,
       parseSourceMap bufferFromHex getPcToInstructionIndexMapping
         sourceCodes srcMap bytecodeHex sources = OK pcsToSourceRange)
   ↔ ∀ (i : nat) e,
       resolvedEntries srcMap !! i = Some e →
       ¬ outOfRange (offsetTables sourceCodes) e)
  ∧ ∀ x,
      parseSourceMap bufferFromHex getPcToInstructionIndexMapping
        sourceCodes srcMap bytecodeHex sources = Throw x →
      ∃ (i : nat) e,
        resolvedEntries srcMap !! i = Some e
        ∧ outOfRange (offsetTables sourceCodes) e
        ∧ x = Error
                ("Error while processing sourcemap: location out of range in "
                 +:+ ToStringStr (sources !! ToPropertyKey (fileIndex e))).
Proof.
  assert (∀ x,
    parseSourceMap bufferFromHex getPcToInstructionIndexMapping
      sourceCodes srcMap bytecodeHex sources = Throw x →
    ∃ (i : nat) e,
      resolvedEntries srcMap !! i = Some e
      ∧ outOfRange (offsetTables sourceCodes) e
      ∧ x = Error (outOfRangeMessage
                     (sources !! ToPropertyKey (fileIndex e)))) as Hthrow.
  { intros x. rewrite parseSourceMap_unfold.
    destruct (eachEntry _ _ _ _ _) as [st | x0] eqn:Hrun; [done |].
    cbn. intros [= <-].
    apply eachEntry_Throw_inv in Hrun as (i & e & He & Hx).
    apply resolveRange_Throw in Hx as [Hout ->]. by exists i, e. }
  split; [split |]; [| | done].
  - intros [pcs Hok] i e He Hout.
    destruct (parseSourceMap_first_out_of_range bufferFromHex
                getPcToInstructionIndexMapping sourceCodes srcMap
                bytecodeHex sources i e He Hout)
      as (j & e' & _ & _ & _ & _ & Hrun).
    by rewrite Hok in Hrun.
  - intros Hnone.
    destruct (parseSourceMap bufferFromHex getPcToInstructionIndexMapping
                sourceCodes srcMap bytecodeHex sources) as [pcs | x] eqn:Hrun;
      [by exists pcs |].
    destruct (Hthrow x eq_refl) as (i & e & He & Hout & _).
    by destruct (Hnone i e He).
Qed.

(** ** The content of a source range *)

Lemma positionAt_lexLt T (j k : nat) :
  (j < k)%nat → (k ≤ String.length T)%nat →
  lexLt (positionAt T j) (positionAt T k).
Proof.
  intros Hjk Hk. unfold positionAt.
  rewrite <- (take_drop j (take k (chars T))), take_take, Nat.min_l by lia.
  rewrite foldl_app. apply lexLt_foldl_advance.
  intros Hnil. apply (f_equal List.length) in Hnil.
  rewrite length_drop, length_take, length_chars in Hnil.
  cbn in Hnil. lia.
Qed.

Lemma offsetTable_lookup_Some text key pos :
  offsetTable text !! key = Some pos →
  ∃ k : nat,
    (k ≤ String.length text)%nat
    ∧ key = ToString (Num (Z.of_nat k))
    ∧ pos = positionAt text k.
Proof.
  intros Hkey.
  destruct (proj1 (offsetTable_is_Some text key) (mk_is_Some _ _ Hkey))
    as (z & Hz & ->).
  exists (Z.to_nat z). rewrite Z2Nat.id by lia.
  split_and!; [lia | done |].
  replace z with (Z.of_nat (Z.to_nat z)) in Hkey by lia.
  rewrite offsetTable_lookup in Hkey by lia. congruence.
Qed.

Lemma ToPropertyKey_Num v z :
  ToPropertyKey v = ToString (Num z) → v = Some (Num z).
Proof.
  destruct v as [[| z'] |]; cbn [ToPropertyKey]; intros Heq.
  - symmetry in Heq. by apply ToString_Num_not_NaN in Heq.
  - apply (inj (λ z, ToString (Num z))) in Heq. by subst.
  - symmetry in Heq. by apply ToString_Num_not_undefined in Heq.
Qed.

Lemma ToString_Num_eq n z : ToString n = ToString (Num z) → n = Num z.
Proof.
  intros Heq. apply (ToPropertyKey_Num (Some n)) in Heq. congruence.
Qed.

(** A range is produced only inside a supplied text, and then it is made
    of the positions of the two offsets. *)
Lemma resolveRange_Some_inv sourceCodes sources e r :
  resolveRange (offsetTables sourceCodes) sources e = OK (Some r) →
  ∃ text (a b : nat),
    sourceCodes !! ToPropertyKey (fileIndex e) = Some (Some text)
    ∧ fileIndex e ≠ Some (Num (-1))
    ∧ offset e = Some (Num (Z.of_nat a))
    ∧ add (offset e) (length e) = Num (Z.of_nat b)
    ∧ (a ≤ String.length text)%nat
    ∧ (b ≤ String.length text)%nat
    ∧ r = {| location := {| start := positionAt text a;
                            end_ := positionAt text b |};
             fileName := sources !! ToPropertyKey (fileIndex e) |}.
Proof.
  unfold resolveRange.
  destruct (strictNotEqual (fileIndex e) (-1)) eqn:Hfi; [| done].
  apply strictNotEqual_true in Hfi.
  rewrite offsetTables_lookup.
  destruct (sourceCodes !! ToPropertyKey (fileIndex e)) as [sourceCode |]
    eqn:Hsrc; [| done].
  cbn.
  destruct (tableOf sourceCode !! ToPropertyKey (offset e)) as [p |] eqn:Hp;
    [| done].
  destruct (tableOf sourceCode !! ToString (add (offset e) (length e)))
    as [q |] eqn:Hq; [| done].
  intros [= <-].
  destruct sourceCode as [text |]; cbn [tableOf] in Hp, Hq;
    [| by rewrite lookup_empty in Hp].
  apply offsetTable_lookup_Some in Hp as (a & Ha & Hka & ->).
  apply offsetTable_lookup_Some in Hq as (b & Hb & Hkb & ->).
  apply ToPropertyKey_Num in Hka. apply ToString_Num_eq in Hkb.
  by exists text, a, b.
Qed.

Lemma length_deltaResolve entries :
  ∀ last, List.length (deltaResolve last entries) = List.length entries.
Proof.
  induction entries as [| entry entries IH]; intros last; [done |].
  cbn. by rewrite IH.
Qed.

(** The value the decode returns for a program counter: the property of
    the instruction-index table named by its instruction index. *)
Lemma parseSourceMap_OK_lookup
    (bufferFromHex : string → list Z)
    (getPcToInstructionIndexMapping : list Z → gmap string number)
    sourceCodes srcMap bytecodeHex sources pcsToSourceRange key idx :
  parseSourceMap bufferFromHex getPcToInstructionIndexMapping
    sourceCodes srcMap bytecodeHex sources = OK pcsToSourceRange →
  numericKeys (getPcToInstructionIndexMapping (bufferFromHex bytecodeHex)) →
  getPcToInstructionIndexMapping (bufferFromHex bytecodeHex) !! key
  = Some idx →
  ∃ st',
    eachEntry (offsetTables sourceCodes) sources 0 (split ";" srcMap)
      initialState = OK st'
    ∧ pcsToSourceRange !! key
      = Some (instructionIndexToSourceRange st' !! ToString idx).
Proof.
  rewrite parseSourceMap_unfold. intros Hrun Hnum Hkey.
  destruct (eachEntry _ _ _ _ _) as [st' |] eqn:Hloop; [| done].
  cbn in Hrun. injection Hrun as <-. exists st'. split; [done |].
  by rewrite rekey_lookup, Hkey.
Qed.

Section Output.

Variable bufferFromHex : string → list Z.
Variable getPcToInstructionIndexMapping : list Z → gmap string number.

(** X7. What a successful decode returns for a mapped instruction.  If
    program counter [key] has instruction index [i], and the entry
    resolved at [i] is [{o, l, fi}] with [fi] other than [-1] and a text
    supplied for [fi], then [o] and [o + l] lie within the text and the
    value at [key] is the range from the position of offset [o] to the
    position of offset [o + l], labelled with [sources[fi]]. *)
Theorem parseSourceMap_range
    sourceCodes srcMap bytecodeHex sources pcsToSourceRange
    key (i : nat) e fi o l text :
  parseSourceMap bufferFromHex getPcToInstructionIndexMapping
    sourceCodes srcMap bytecodeHex sources = OK pcsToSourceRange →
  numericKeys (getPcToInstructionIndexMapping (bufferFromHex bytecodeHex)) →
  getPcToInstructionIndexMapping (bufferFromHex bytecodeHex) !! key
  = Some (Num (Z.of_nat i)) →
  resolvedEntries srcMap !! i = Some e →
  e = {| offset := Some (Num o); length := Some (Num l);
         fileIndex := Some (Num fi) |} →
  fi ≠ -1 →
  sourceCodes !! ToString (Num fi) = Some (Some text) →
  0 ≤ o ≤ Z.of_nat (String.length text)
  ∧ 0 ≤ o + l ≤ Z.of_nat (String.length text)
  ∧ pcsToSourceRange !! key
    = Some (Some {| location :=
                      {| start := positionAt text (Z.to_nat o);
                         end_ := positionAt text (Z.to_nat (o + l)) |};
                    fileName := sources !! ToString (Num fi) |}).
Proof.
  intros Hrun Hnum Hkey He -> Hfi Hsrc.
  destruct (parseSourceMap_OK_lookup _ _ _ _ _ _ _ _ _ Hrun Hnum Hkey)
    as (st' & Hloop & ->).
  destruct (eachEntry_OK _ _ _ _ _ _ Hloop) as [Hnew _].
  destruct (Hnew i _ He) as (range & Hrange & Hlook).
  rewrite Z.add_0_l in Hlook. rewrite Hlook.
  assert (¬ unmapped (offsetTables sourceCodes)
            {| offset := Some (Num o); length := Some (Num l);
               fileIndex := Some (Num fi) |}) as Hmapped.
  { intros [Hm | Hm]; cbn [fileIndex ToPropertyKey] in Hm; [congruence |].
    rewrite offsetTables_lookup in Hm. by rewrite Hsrc in Hm. }
  destruct range as [r |];
    [| by apply resolveRange_OK_None in Hrange].
  apply resolveRange_Some_inv in Hrange
    as (text' & a & b & Hsrc' & _ & Ha & Hb & Hla & Hlb & ->).
  cbn [fileIndex offset length ToPropertyKey add ToNumber] in *.
  rewrite Hsrc in Hsrc'.
  injection Hsrc' as <-. injection Ha as ->. injection Hb as Hb.
  rewrite Hb, !Nat2Z.id. split_and!; try lia. done.
Qed.

(** X8. What a successful decode returns where there is nothing to map.
    A program counter whose instruction index is [NaN], negative or not
    less than the number of entries, or whose entry is unmapped, is
    still a key of the result, with the value [undefined]. *)
Theorem parseSourceMap_undefined
    sourceCodes srcMap bytecodeHex sources pcsToSourceRange key idx :
  parseSourceMap bufferFromHex getPcToInstructionIndexMapping
    sourceCodes srcMap bytecodeHex sources = OK pcsToSourceRange →
  numericKeys (getPcToInstructionIndexMapping (bufferFromHex bytecodeHex)) →
  getPcToInstructionIndexMapping (bufferFromHex bytecodeHex) !! key
  = Some idx →
  idx = NaN
  ∨ (∃ z, idx = Num z
          ∧ (z < 0 ∨ Z.of_nat (List.length (split ";" srcMap)) ≤ z))
  ∨ (∃ (i : nat) e,
        idx = Num (Z.of_nat i)
        ∧ resolvedEntries srcMap !! i = Some e
        ∧ unmapped (offsetTables sourceCodes) e) →
  pcsToSourceRange !! key = Some None.
Proof.
  intros Hrun Hnum Hkey Hidx.
  destruct (parseSourceMap_OK_lookup _ _ _ _ _ _ _ _ _ Hrun Hnum Hkey)
    as (st' & Hloop & ->).
  f_equal. apply eq_None_not_Some. intros [r Hr].
  destruct (eachEntry_keys _ _ _ _ _ _ _ _ Hloop Hr)
    as [Hinit | (j & e & Heq & He & Hres)]; [done |].
  rewrite Z.add_0_l in Heq. apply ToString_Num_eq in Heq.
  destruct Hidx as [-> | [(z & -> & Hz) | (i & e' & -> & He' & Hun)]].
  - done.
  - injection Heq as ->. apply lookup_lt_Some in He.
    rewrite length_deltaResolve in He. lia.
  - injection Heq as Heq. apply Nat2Z.inj in Heq as ->.
    unfold resolvedEntries in He'. rewrite He in He'. injection He' as <-.
    by rewrite (resolveRange_unmapped _ sources e Hun) in Hres.
Qed.

End Output.

Lemma parseSourceMap_range_witness :
  0 ≤ 0 ≤ Z.of_nat (String.length "contract C { function f() public {} }")
  ∧ 0 ≤ 0 + 10
      ≤ Z.of_nat (String.length "contract C { function f() public {} }")
  ∧ ({["0" :=
        Some {| location :=
                  {| start := {| line := 1; column := 0 |};
                     end_ := {| line := 1; column := 10 |} |};
                fileName := Some "C.sol" |}]}
      : gmap string (option SourceRange)) !! "0"
    = Some (Some {| location :=
                      {| start :=
                           positionAt "contract C { function f() public {} }"
                             (Z.to_nat 0);
                         end_ :=
                           positionAt "contract C { function f() public {} }"
                             (Z.to_nat (0 + 10)) |};
                    fileName :=
                      ({["0" := "C.sol"]} : gmap string string)
                        !! ToString (Num 0) |}).
Proof.
  apply (parseSourceMap_range (λ _, []) (λ _, {["0" := Num 0]})
           {["0" := Some "contract C { function f() public {} }"]}
           "0:10:0:-" "00" {["0" := "C.sol"]} _ "0" 0
           {| offset := Some (Num 0); length := Some (Num 10);
              fileIndex := Some (Num 0) |} 0 0 10).
  - vm_compute. reflexivity.
  - intros key Hkey. rewrite dom_singleton_L in Hkey.
    apply elem_of_singleton in Hkey as ->. by exists 0.
  - reflexivity.
  - reflexivity.
  - reflexivity.
  - discriminate.
  - reflexivity.
Defined.

Lemma parseSourceMap_undefined_witness :
  ({["0" :=
      Some {| location :=
                {| start := {| line := 1; column := 0 |};
                   end_ := {| line := 1; column := 1 |} |};
              fileName := Some "C.sol" |};
     "2" := None]}
    : gmap string (option SourceRange)) !! "2"
  = Some None.
Proof.
  apply (parseSourceMap_undefined
           (λ _, []) (λ _, {["0" := Num 0; "2" := Num 7]})
           {["0" := Some "abc"]} "0:1:0;:2:-1" "6000" {["0" := "C.sol"]}
           _ "2" (Num 7)).
  - vm_compute. reflexivity.
  - intros key Hkey. rewrite dom_insert_L, dom_singleton_L in Hkey.
    apply elem_of_union in Hkey as [Hkey | Hkey].
    + apply elem_of_singleton in Hkey as ->. by exists 0.
    + apply elem_of_singleton in Hkey as ->. by exists 2.
  - reflexivity.
  - right. left. exists 7. split; [reflexivity |]. right. cbn. lia.
Defined.

(** X12. The two ends of a range are ordered as the sign of the length:
    when range resolution produces a range for an entry with offset [o]
    and length [l], its start precedes its end if [l > 0], the two are
    equal if [l = 0], and its end precedes its start if [l < 0] (a
    negative length is not rejected). *)
Theorem resolveRange_order sourceCodes sources e r o l :
  resolveRange (offsetTables sourceCodes) sources e = OK (Some r) →
  offset e = Some (Num o) →
  length e = Some (Num l) →
  (0 < l → lexLt (start (location r)) (end_ (location r)))
  ∧ (l = 0 → start (location r) = end_ (location r))
  ∧ (l < 0 → lexLt (end_ (location r)) (start (location r))).
Proof.
  intros Hr Ho Hl.
  apply resolveRange_Some_inv in Hr
    as (text & a & b & _ & _ & Ha & Hb & Hla & Hlb & ->).
  rewrite Ho in Ha, Hb. rewrite Hl in Hb.
  cbn [add ToNumber] in Hb. injection Ha as ->. injection Hb as Hb.
  cbn [location start end_]. split_and!; intros Hsign.
  - apply positionAt_lexLt; lia.
  - f_equal. lia.
  - apply positionAt_lexLt; lia.
Qed.

Lemma resolveRange_order_witness :
  let r := {| location := {| start := {| line := 1; column := 4 |};
                             end_ := {| line := 1; column := 1 |} |};
              fileName := None |} in
  (0 < -3 → lexLt (start (location r)) (end_ (location r)))
  ∧ (-3 = 0 → start (location r) = end_ (location r))
  ∧ (-3 < 0 → lexLt (end_ (location r)) (start (location r))).
Proof.
  apply (resolveRange_order {["0" := Some "abcdef"]} ∅
           {| offset := Some (Num 4); length := Some (Num (-3));
              fileIndex := Some (Num 0) |} _ 4 (-3)).
  - vm_compute. reflexivity.
  - reflexivity.
  - reflexivity.
Defined.

(** ** Delta resolution and the shape of the source map *)







(** X10. The empty source map.  It holds one entry with every field
    absent, which is unmapped: the decode succeeds and returns
    [undefined] for every program counter ([sourceCodes] having no
    property named [undefined]). *)
Theorem parseSourceMap_empty_map
    (bufferFromHex : string → list Z)
    (getPcToInstructionIndexMapping : list Z → gmap string number)
    sourceCodes bytecodeHex sources :
  sourceCodes !! "undefined" = None →
  numericKeys (getPcToInstructionIndexMapping (bufferFromHex bytecodeHex)) →
  parseSourceMap bufferFromHex getPcToInstructionIndexMapping
    sourceCodes "" bytecodeHex sources
  = OK ((λ _, None)
          <$> getPcToInstructionIndexMapping (bufferFromHex bytecodeHex)).
Proof.
  intros Hno Hnum. rewrite parseSourceMap_unfold.
  change (split ";" "") with [""]. cbn [eachEntry].
  assert (resolveRange (offsetTables sourceCodes) sources
            (parseEntry (lastParsedEntry initialState) "") = OK None)
    as Hres.
  { apply resolveRange_unmapped. right.
    change (fileIndex (parseEntry (lastParsedEntry initialState) ""))
      with (@None number).
    cbn [ToPropertyKey]. by rewrite offsetTables_lookup, Hno. }
  rewrite (eachEntry_body_OK _ _ _ _ _ None Hres). cbn. f_equal.
  apply map_eq. intros key. rewrite rekey_lookup, lookup_fmap by done.
  destruct (_ !! key); [| done]. cbn. by rewrite lookup_empty.
Qed.

Lemma parseSourceMap_empty_map_witness :
  parseSourceMap (λ _, []) (λ _, {["0" := Num 0; "2" := Num 1]})
    {["0" := Some "abc"]} "" "6000" {["0" := "C.sol"]}
  = OK ((λ _, None)
          <$> ({["0" := Num 0; "2" := Num 1]} : gmap string number)).
Proof.
  apply (parseSourceMap_empty_map (λ _, [])
           (λ _, {["0" := Num 0; "2" := Num 1]})).
  - reflexivity.
  - intros key Hkey. rewrite dom_insert_L, dom_singleton_L in Hkey.
    apply elem_of_union in Hkey as [Hkey | Hkey].
    + apply elem_of_singleton in Hkey as ->. by exists 0.
    + apply elem_of_singleton in Hkey as ->. by exists 2.
Defined.

(** ** The file names only label the output *)

Lemma resolveRange_sources tables sources1 sources2 e :
  match resolveRange tables sources1 e, resolveRange tables sources2 e with
  | OK range1, OK range2 => location <$> range1 = location <$> range2
  | Throw _, Throw _ => True
  | _, _ => False
  end.
Proof. unfold resolveRange. by repeat case_match; simplify_eq. Qed.

Lemma eachEntry_sources tables sources1 sources2 entries :
  ∀ i st1 st2,
    lastParsedEntry st1 = lastParsedEntry st2 →
    location <$> instructionIndexToSourceRange st1
    = location <$> instructionIndexToSourceRange st2 →
    match eachEntry tables sources1 i entries st1,
          eachEntry tables sources2 i entries st2 with
    | OK st1', OK st2' =>
        location <$> instructionIndexToSourceRange st1'
        = location <$> instructionIndexToSourceRange st2'
    | Throw _, Throw _ => True
    | _, _ => False
    end.
Proof.
  induction entries as [| entry entries IH]; intros i st1 st2 Hlast Htbl;
    [done |].
  cbn [eachEntry]. unfold eachEntry_body. rewrite Hlast.
  pose proof (resolveRange_sources tables sources1 sources2
                (parseEntry (lastParsedEntry st2) entry)) as Hres.
  destruct (resolveRange tables sources1 _) as [range1 | x1],
           (resolveRange tables sources2 _) as [range2 | x2];
    try done.
  cbn [mbind result_bind]. apply IH; [done |].
  cbn [instructionIndexToSourceRange].
  destruct range1 as [r1 |], range2 as [r2 |]; try done.
  cbn in Hres. injection Hres as Hres.
  by rewrite !fmap_insert, Htbl, Hres.
Qed.

(** X13. The file names only label the output.  With any two [sources]
    tables the decode fails in the same cases and, when it succeeds,
    returns the same locations for the same program counters. *)
Theorem parseSourceMap_sources_only_label
    (bufferFromHex : string → list Z)
    (getPcToInstructionIndexMapping : list Z → gmap string number)
    sourceCodes srcMap bytecodeHex sources1 sources2 :
  numericKeys (getPcToInstructionIndexMapping (bufferFromHex bytecodeHex)) →
  locationsOf
    (parseSourceMap bufferFromHex getPcToInstructionIndexMapping
       sourceCodes srcMap bytecodeHex sources1)
  = locationsOf
      (parseSourceMap bufferFromHex getPcToInstructionIndexMapping
         sourceCodes srcMap bytecodeHex sources2).
Proof.
  intros Hnum. rewrite !parseSourceMap_unfold.
  pose proof (eachEntry_sources (offsetTables sourceCodes) sources1 sources2
                (split ";" srcMap) 0 initialState initialState
                eq_refl eq_refl) as Hloop.
  destruct (eachEntry _ sources1 _ _ _) as [st1 | x1],
           (eachEntry _ sources2 _ _ _) as [st2 | x2]; try done.
  cbn. f_equal. apply map_eq. intros key.
  rewrite !lookup_fmap, !rekey_lookup by done.
  destruct (_ !! key) as [idx |]; [| done]. cbn. f_equal.
  apply (f_equal (.!! ToString idx)) in Hloop.
  by rewrite !lookup_fmap in Hloop.
Qed.

Lemma parseSourceMap_sources_only_label_witness :
  locationsOf
    (parseSourceMap (λ _, []) (λ _, {["0" := Num 0; "2" := Num 1]})
       {["0" := Some "abc"]} "0:1:0;:2:-1" "6000" {["0" := "C.sol"]})
  = locationsOf
      (parseSourceMap (λ _, []) (λ _, {["0" := Num 0; "2" := Num 1]})
         {["0" := Some "abc"]} "0:1:0;:2:-1" "6000" ∅).
Proof.
  apply parseSourceMap_sources_only_label.
  intros key Hkey. rewrite dom_insert_L, dom_singleton_L in Hkey.
  apply elem_of_union in Hkey as [Hkey | Hkey].
  - apply elem_of_singleton in Hkey as ->. by exists 0.
  - apply elem_of_singleton in Hkey as ->. by exists 2.
Defined.
